(** * Neboskreb: the tower-stacking engine of [App.tsx]

    A shallow embedding of the game logic of the React component [App]
    (hook oscillation, drop evaluation, scoring, level progression and the
    star rating) together with the level table of [constants.ts].

    Numbers.  JavaScript numbers that only ever hold integers ([score],
    [combo], [cameraY], block ids) are [Z]; list lengths and indices are
    [nat]; horizontal positions, widths and times are rationals ([Q]),
    which contain every finite double.  [Math.sin] is not rational: the
    game model receives its value at each animation frame as an input,
    and [Hook.position] states the same formula over the reals.

    Arithmetic.  The functions that compute with fractions are given
    twice.  [handleDrop], [updateHookPosition] and [hookSpeed] compute in
    exact rationals; the states, events and timers of the application and
    the order properties of the stack are developed over them.  Module
    [F64] gives the same functions with every operation rounded to
    binary64 ([round64]), as the engine computes them; the rules of a single
    drop, which depend on the computed offset and width, are stated there.
    All other functions do no floating-point arithmetic and are shared.

    React.  A handler is a closure over the render in which it was created.
    Every handler below therefore takes the render snapshot [r] it closes
    over (and the level configuration [cfg] computed by that render) next to
    the live state [st] that its [set...] calls update.  Handlers run from
    the user interface close over the latest render ([r = st]); callbacks
    handed to [setTimeout] keep the snapshot of the render that scheduled
    them. *)

From Stdlib Require Import String ZArith QArith Qabs Qround Qpower Qreals.
From Stdlib Require Import List Bool Lia Permutation.
From Stdlib Require Lqa Lra Reals.
Import ListNotations.

Local Open Scope Z_scope.
Local Open Scope Q_scope.

(** ** types.ts *)

Inductive GameState : Set := MENU | PLAYING | LEVEL_COMPLETE | GAME_OVER.

Definition GameState_eqb (a b : GameState) : bool :=
  match a, b with
  | MENU, MENU | PLAYING, PLAYING
  | LEVEL_COMPLETE, LEVEL_COMPLETE | GAME_OVER, GAME_OVER => true
  | _, _ => false
  end.

Module Block.
(** [isPerfect] is an optional field: [None] is JavaScript's [undefined].
    [color] is [None] when the palette lookup is out of range. *)
Record t : Set := mk {
  id : Z;
  width : Q;
  x : Q;
  y : nat;
  color : option string;
  isPerfect : option bool
}.
End Block.

Module LevelConfig.
Record t : Set := mk {
  levelNumber : nat;
  targetBlocks : nat;
  initialWidth : Q;
  baseSpeed : Q;
  colorPalette : list string
}.
End LevelConfig.

(** ** constants.ts *)

Definition BLOCK_HEIGHT : Z := 40%Z.
Definition PERFECT_TOLERANCE : Q := 3.
Definition MAX_LEVELS : nat := 10.

Definition COLORS : list (list string) :=
  [ ["#ef4444"; "#f87171"]; ["#f97316"; "#fb923c"]; ["#eab308"; "#facc15"];
    ["#22c55e"; "#4ade80"]; ["#06b6d4"; "#22d3ee"]; ["#3b82f6"; "#60a5fa"];
    ["#a855f7"; "#c084fc"]; ["#ec4899"; "#f472b6"] ]%string.

(** The body of the [Array.from] callback: the configuration of index [i].
    [baseSpeed] is held as the decimal [1 + levelNum * 0.2]; the double that
    the engine stores for it is [F64.baseSpeed]. *)
Definition level_of_index (i : nat) : LevelConfig.t :=
  let levelNum := (i + 1)%nat in
  {| LevelConfig.levelNumber := levelNum;
     LevelConfig.targetBlocks := (5 + levelNum * 2)%nat;
     LevelConfig.initialWidth :=
       inject_Z (Z.max 20 (50 - Z.of_nat levelNum * 2));
     LevelConfig.baseSpeed := 1 + inject_Z (Z.of_nat levelNum) * (2 # 10);
     LevelConfig.colorPalette := nth (i mod length COLORS) COLORS [] |}.

Definition LEVELS : list LevelConfig.t :=
  map level_of_index (seq 0 MAX_LEVELS).

(** ** Component state *)

Inductive FeedbackType : Set := perfect | good | bad.

(** The [useState] cells of [App], followed by its two [useRef] cells that
    the game logic reads.  A ref is shared by all renders, so handlers read
    refs from the live state. *)
Record State : Set := mkState {
  gameState : GameState;
  currentLevelIdx : nat;
  blocks : list Block.t;
  hookX : Q;
  currentBlockWidth : Q;
  score : Z;
  combo : Z;
  feedback : option FeedbackType;
  cameraY : Z;
  startTimeRef : option Q;
  isDroppingRef : bool
}.

Definition setGameState (v : GameState) (s : State) : State :=
  mkState v (currentLevelIdx s) (blocks s) (hookX s) (currentBlockWidth s)
          (score s) (combo s) (feedback s) (cameraY s) (startTimeRef s)
          (isDroppingRef s).
Definition setCurrentLevelIdx (v : nat) (s : State) : State :=
  mkState (gameState s) v (blocks s) (hookX s) (currentBlockWidth s)
          (score s) (combo s) (feedback s) (cameraY s) (startTimeRef s)
          (isDroppingRef s).
Definition setBlocks (v : list Block.t) (s : State) : State :=
  mkState (gameState s) (currentLevelIdx s) v (hookX s) (currentBlockWidth s)
          (score s) (combo s) (feedback s) (cameraY s) (startTimeRef s)
          (isDroppingRef s).
Definition setHookX (v : Q) (s : State) : State :=
  mkState (gameState s) (currentLevelIdx s) (blocks s) v (currentBlockWidth s)
          (score s) (combo s) (feedback s) (cameraY s) (startTimeRef s)
          (isDroppingRef s).
Definition setCurrentBlockWidth (v : Q) (s : State) : State :=
  mkState (gameState s) (currentLevelIdx s) (blocks s) (hookX s) v
          (score s) (combo s) (feedback s) (cameraY s) (startTimeRef s)
          (isDroppingRef s).
Definition setScore (v : Z) (s : State) : State :=
  mkState (gameState s) (currentLevelIdx s) (blocks s) (hookX s)
          (currentBlockWidth s) v (combo s) (feedback s) (cameraY s)
          (startTimeRef s) (isDroppingRef s).
Definition setCombo (v : Z) (s : State) : State :=
  mkState (gameState s) (currentLevelIdx s) (blocks s) (hookX s)
          (currentBlockWidth s) (score s) v (feedback s) (cameraY s)
          (startTimeRef s) (isDroppingRef s).
Definition setFeedback (v : option FeedbackType) (s : State) : State :=
  mkState (gameState s) (currentLevelIdx s) (blocks s) (hookX s)
          (currentBlockWidth s) (score s) (combo s) v (cameraY s)
          (startTimeRef s) (isDroppingRef s).
Definition setCameraY (v : Z) (s : State) : State :=
  mkState (gameState s) (currentLevelIdx s) (blocks s) (hookX s)
          (currentBlockWidth s) (score s) (combo s) (feedback s) v
          (startTimeRef s) (isDroppingRef s).
Definition setStartTimeRef (v : option Q) (s : State) : State :=
  mkState (gameState s) (currentLevelIdx s) (blocks s) (hookX s)
          (currentBlockWidth s) (score s) (combo s) (feedback s) (cameraY s)
          v (isDroppingRef s).

(** The initial values given to [useState] and [useRef]. *)
Definition initialState : State :=
  {| gameState := MENU; currentLevelIdx := 0; blocks := []; hookX := 50;
     currentBlockWidth := 0; score := 0; combo := 0; feedback := None;
     cameraY := 0; startTimeRef := None; isDroppingRef := false |}.

(** [const currentLevelConfig = LEVELS[currentLevelIdx]]: [None] is
    [undefined], on which the render itself throws. *)
Definition currentLevelConfig (r : State) : option LevelConfig.t :=
  nth_error LEVELS (currentLevelIdx r).

(** Strict comparisons of numbers. *)
Definition Qlt_bool (a b : Q) : bool := negb (Qle_bool b a).
Definition Qgt_bool (a b : Q) : bool := Qlt_bool b a.

(** ** Deferred callbacks

    The three functions that [App] hands to [setTimeout], each with the
    values its closure captured when it was scheduled. *)
Inductive Callback : Set :=
| CbNextLevelReset (capturedIdx : nat)
    (** the arrow function of [nextLevel], closed over [currentLevelIdx] *)
| CbStartGame (capturedCfg : LevelConfig.t)
    (** [startGame] of the render in which [nextLevel] ran, closed over that
        render's [currentLevelConfig] *)
| CbClearFeedback.
    (** [() => setFeedback(null)] *)

(** ** Hook oscillation *)

(** [speed] of [updateHookPosition], in exact arithmetic. *)
Definition hookSpeed (cfg : LevelConfig.t) (r : State) : Q :=
  let difficultyMultiplier :=
    1 + inject_Z (Z.of_nat (length (blocks r))) * (5 # 100) in
  LevelConfig.baseSpeed cfg * difficultyMultiplier * (2 # 1000).

(** [updateHookPosition(time)]; [sinv] is the value that [Math.sin] returns
    for [time * speed]. *)
Definition updateHookPosition (cfg : LevelConfig.t) (sinv : Q)
    (r st : State) : State :=
  if negb (GameState_eqb (gameState r) PLAYING) then st
  else
    let range := 45 in
    let x := 50 + sinv * range in
    setHookX x st.

(** [!startTimeRef.current]: [undefined] and [0] are falsy. *)
Definition startTime_unset (st : State) : bool :=
  match startTimeRef st with
  | None => true
  | Some t => Qeq_bool t 0
  end.

(** [animate(time)], the animation-frame callback. *)
Definition animate (cfg : LevelConfig.t) (time sinv : Q) (r st : State)
    : State :=
  let st1 :=
    if startTime_unset st then setStartTimeRef (Some time) st else st in
  updateHookPosition cfg sinv r st1.

Module Hook.
Import Reals.
(** The position that [updateHookPosition(time)] stores, with the sine
    taken over the reals. *)
Definition position (cfg : LevelConfig.t) (r : State) (time : Q) : R :=
  (50 + sin (Q2R (time * hookSpeed cfg r)) * 45)%R.

(** The elapsed time that the specification speaks of: the time at frame
    [time] since the start recorded in [startTimeRef] ([None] before the
    first frame of a session).  The program never computes it. *)
Definition elapsed (st : State) (time : Q) : option Q :=
  match startTimeRef st with
  | Some t0 => Some (time - t0)
  | None => None
  end.
End Hook.

(** ** Game logic *)

Definition startGame (cfg : LevelConfig.t) (st : State) : State :=
  let st := setBlocks [] st in
  let st := setScore 0 st in
  let st := setCombo 0 st in
  let st := setCameraY 0 st in
  let st := setCurrentBlockWidth (LevelConfig.initialWidth cfg) st in
  let st := setGameState PLAYING st in
  setStartTimeRef None st.

(** The body of the arrow function that [nextLevel] defers.  [LEVELS[i + 1]]
    is read after the first four updates; were it [undefined] the callback
    would throw there. *)
Definition nextLevelReset (capturedIdx : nat) (st : State) : State :=
  let st := setBlocks [] st in
  let st := setScore 0 st in
  let st := setCombo 0 st in
  let st := setCameraY 0 st in
  match nth_error LEVELS (capturedIdx + 1) with
  | Some next =>
      let st := setCurrentBlockWidth (LevelConfig.initialWidth next) st in
      setGameState PLAYING st
  | None => st
  end.

(** [nextLevel]: the immediate update and the callback it schedules. *)
Definition nextLevel (cfg : LevelConfig.t) (r st : State)
    : State * list Callback :=
  if (currentLevelIdx r <? length LEVELS - 1)%nat then
    (setCurrentLevelIdx (currentLevelIdx st + 1) st,
     [CbNextLevelReset (currentLevelIdx r)])
  else
    (setCurrentLevelIdx 0 st, [CbStartGame cfg]).

Definition retryLevel (cfg : LevelConfig.t) (st : State) : State :=
  startGame cfg st.

Definition endGame (success : bool) (st : State) : State :=
  setGameState (if success then LEVEL_COMPLETE else GAME_OVER) st.

(** [previousBlock] of [handleDrop], as the pair of its [x] and [width]:
    the top of the stack, or the base platform under an empty stack. *)
Definition previousBlock (cfg : LevelConfig.t) (r : State) : Q * Q :=
  match blocks r with
  | [] => (50, LevelConfig.initialWidth cfg + 20)
  | b0 :: bs => let b := last bs b0 in (Block.x b, Block.width b)
  end.

Definition absDiff (cfg : LevelConfig.t) (r : State) : Q :=
  let currentX := hookX r in
  let diff := currentX - fst (previousBlock cfg r) in
  Qabs diff.

(** [colorPalette[blocks.length % colorPalette.length]]. *)
Definition paletteColor (cfg : LevelConfig.t) (n : nat) : option string :=
  let palette := LevelConfig.colorPalette cfg in
  match length palette with
  | O => None
  | S _ => nth_error palette (n mod length palette)
  end.

(** The object literal [newBlock] of [handleDrop], given the locals
    [isPerfect], [newWidth] and [placedX]. *)
Definition newBlock (cfg : LevelConfig.t) (now : Z) (r : State)
    (isPerfect : bool) (newWidth placedX : Q) : Block.t :=
  {| Block.id := now;
     Block.width := if isPerfect then currentBlockWidth r else newWidth;
     Block.x := placedX;
     Block.y := length (blocks r);
     Block.color := paletteColor cfg (length (blocks r));
     Block.isPerfect := Some isPerfect |}.

(** The part of [handleDrop] after the hit has been classified
    ("Add new block" to the end). *)
Definition addNewBlock (cfg : LevelConfig.t) (now : Z) (r st : State)
    (isPerfect : bool) (newWidth placedX : Q) : State * list Callback :=
  let newBlock := newBlock cfg now r isPerfect newWidth placedX in
  let newBlocks := blocks r ++ [newBlock] in
  let st := setBlocks newBlocks st in
  let st := setCurrentBlockWidth (Block.width newBlock) st in
  if (LevelConfig.targetBlocks cfg <=? length newBlocks)%nat then
    (endGame true st, [CbClearFeedback])
  else if (3 <? length newBlocks)%nat then
    (setCameraY (cameraY st + BLOCK_HEIGHT)%Z st, [CbClearFeedback])
  else
    (st, [CbClearFeedback]).

(** [handleDrop]; [now] is the value of [Date.now()].  The result is the
    updated state and the timeouts scheduled.  The offset and the trimmed
    width are computed exactly here and rounded in [F64.handleDrop]. *)
Definition handleDrop (cfg : LevelConfig.t) (now : Z) (r st : State)
    : State * list Callback :=
  if negb (GameState_eqb (gameState r) PLAYING) || isDroppingRef st
  then (st, [])
  else
    let previous := previousBlock cfg r in
    let currentX := hookX r in
    let absDiff := absDiff cfg r in
    let overlapLimit := currentBlockWidth r / 2 + snd previous / 2 in
    if Qgt_bool absDiff (currentBlockWidth r) then
      (endGame false st, [])
    else if Qle_bool absDiff PERFECT_TOLERANCE then
      let st := setCombo (combo st + 1)%Z st in
      let st := setScore (score st + 20 + combo r * 5)%Z st in
      let st := setFeedback (Some perfect) st in
      addNewBlock cfg now r st true (currentBlockWidth r) (fst previous)
    else
      let st := setCombo 0 st in
      let penalty := absDiff in
      let newWidth := currentBlockWidth r - penalty in
      if Qlt_bool newWidth 5 then
        (endGame false st, [])
      else
        let st := setScore (score st + 10)%Z st in
        let st := setFeedback (Some good) st in
        addNewBlock cfg now r st false newWidth currentX.

(** [b => b.isPerfect] as a filter predicate: [undefined] is falsy. *)
Definition isPerfectTruthy (b : Block.t) : bool :=
  match Block.isPerfect b with
  | Some true => true
  | _ => false
  end.

(** [perfectCount / blocks.length] for a non-empty stack. *)
Definition perfectRatio (perfectCount len : nat) : Q :=
  inject_Z (Z.of_nat perfectCount) / inject_Z (Z.of_nat len).

(** [calculateStars].  With an empty stack the ratio is [0 / 0 = NaN], and
    every comparison with [NaN] is false. *)
Definition calculateStars (r : State) : Z :=
  if GameState_eqb (gameState r) GAME_OVER then 0%Z
  else
    let perfectCount := length (filter isPerfectTruthy (blocks r)) in
    match length (blocks r) with
    | O => 1%Z
    | S _ =>
        let ratio := perfectRatio perfectCount (length (blocks r)) in
        if Qle_bool (6 # 10) ratio then 3%Z
        else if Qle_bool (3 # 10) ratio then 2%Z
        else 1%Z
    end.

(** ** The running application *)

(** The live state and the timeouts that are pending. *)
Record World : Set := mkWorld {
  state : State;
  timers : list Callback
}.

Definition initialWorld : World := mkWorld initialState [].

Inductive Event : Set :=
| EvPlay                      (** the menu's play button: [startGame] *)
| EvNext                      (** level-complete screen: [nextLevel] *)
| EvRetry                     (** either end screen: [retryLevel] *)
| EvMenu                      (** game-over screen: back to the menu *)
| EvDrop (now : Z)            (** pointer down on the game area *)
| EvFrame (time sinv : Q)     (** animation frame; [sinv] is the sine *)
| EvTimer (n : nat).          (** the [n]-th pending timeout fires *)

Definition runCallback (cb : Callback) (st : State) : State :=
  match cb with
  | CbNextLevelReset i => nextLevelReset i st
  | CbStartGame cfg => startGame cfg st
  | CbClearFeedback => setFeedback None st
  end.

Definition removeNth {A : Type} (n : nat) (l : list A) : list A :=
  firstn n l ++ skipn (S n) l.

(** One event of the application.  [None]: the event cannot occur in this
    state (its button is not rendered, there is no such timeout, the sine is
    out of range) or the render has thrown. *)
Definition step (ev : Event) (w : World) : option World :=
  let st := state w in
  match currentLevelConfig st with
  | None => None
  | Some cfg =>
      match ev with
      | EvPlay =>
          if GameState_eqb (gameState st) MENU
          then Some (mkWorld (startGame cfg st) (timers w)) else None
      | EvNext =>
          if GameState_eqb (gameState st) LEVEL_COMPLETE
          then let (st', cbs) := nextLevel cfg st st in
               Some (mkWorld st' (timers w ++ cbs))
          else None
      | EvRetry =>
          if GameState_eqb (gameState st) LEVEL_COMPLETE
             || GameState_eqb (gameState st) GAME_OVER
          then Some (mkWorld (retryLevel cfg st) (timers w)) else None
      | EvMenu =>
          if GameState_eqb (gameState st) GAME_OVER
          then Some (mkWorld (setGameState MENU st) (timers w)) else None
      | EvDrop now =>
          let (st', cbs) := handleDrop cfg now st st in
          Some (mkWorld st' (timers w ++ cbs))
      | EvFrame time sinv =>
          if Qle_bool (-1) sinv && Qle_bool sinv 1
          then Some (mkWorld (animate cfg time sinv st st) (timers w))
          else None
      | EvTimer n =>
          match nth_error (timers w) n with
          | Some cb =>
              Some (mkWorld (runCallback cb st) (removeNth n (timers w)))
          | None => None
          end
      end
  end.

Fixpoint run (evs : list Event) (w : World) : option World :=
  match evs with
  | [] => Some w
  | ev :: evs' =>
      match step ev w with
      | Some w' => run evs' w'
      | None => None
      end
  end.

(** The states the application can be in. *)
Definition reachable (w : World) : Prop :=
  exists evs, run evs initialWorld = Some w.

(** ** Invariants of the running application *)

(** Widths never grow from the bottom of the stack to its top. *)
Definition nonIncreasing (bs : list Block.t) : Prop :=
  forall i j b1 b2, (i <= j)%nat ->
    nth_error bs i = Some b1 -> nth_error bs j = Some b2 ->
    Block.width b2 <= Block.width b1.

(** The width of the top block. *)
Definition topWidth (bs : list Block.t) : option Q :=
  match bs with
  | [] => None
  | b0 :: bs' => Some (Block.width (last bs' b0))
  end.

Definition levelOk (cfg : LevelConfig.t) : Prop :=
  20 <= LevelConfig.initialWidth cfg /\ (7 <= LevelConfig.targetBlocks cfg)%nat.

Definition callbackOk (cb : Callback) : Prop :=
  match cb with
  | CbNextLevelReset i => (i + 1 < length LEVELS)%nat
  | CbStartGame cfg => levelOk cfg
  | CbClearFeedback => True
  end.

(** What holds of every state, started or not. *)
Record baseInv (w : World) : Prop := {
  inv_level : (currentLevelIdx (state w) < length LEVELS)%nat;
  inv_guard : isDroppingRef (state w) = false;
  inv_combo : (0 <= combo (state w))%Z;
  inv_score : (0 <= score (state w))%Z;
  inv_hook : 5 <= hookX (state w) /\ hookX (state w) <= 95;
  inv_timers : Forall callbackOk (timers w)
}.

(** The application as mounted, before any game was started. *)
Definition neverStarted (w : World) : Prop :=
  gameState (state w) = MENU /\ blocks (state w) = [] /\
  currentBlockWidth (state w) = 0 /\ timers w = [].

(** The stack discipline that holds once a game has been started. *)
Record stackInv (st : State) : Prop := {
  inv_min : Forall (fun b => 5 <= Block.width b) (blocks st);
  inv_sorted : nonIncreasing (blocks st);
  inv_above : forall b, In b (blocks st) ->
                currentBlockWidth st <= Block.width b;
  inv_pending : match topWidth (blocks st) with
                | Some wd => currentBlockWidth st = wd
                | None => 20 <= currentBlockWidth st
                end;
  inv_pending_min : 5 <= currentBlockWidth st;
  inv_complete : gameState st = LEVEL_COMPLETE ->
                 (7 <= length (blocks st))%nat
}.

Definition Inv (w : World) : Prop :=
  baseInv w /\ (neverStarted w \/ stackInv (state w)).

(** ** Outcome of a drop, as the state shows it *)

(** [st'] is [st] after a drop that placed block [b]: the block is on top of
    the stack and gives the pending width, the feedback label is [fb], and
    the level is complete once the stack has reached the target. *)
Definition placed (cfg : LevelConfig.t) (st st' : State) (b : Block.t)
    (fb : FeedbackType) : Prop :=
  blocks st' = blocks st ++ [b] /\
  currentBlockWidth st' = Block.width b /\
  feedback st' = Some fb /\
  gameState st' =
    (if (LevelConfig.targetBlocks cfg <=? length (blocks st ++ [b]))%nat
     then LEVEL_COMPLETE else PLAYING).

(** ** Event sequences used below *)

(** Events that belong to the session being played: drops and animation
    frames.  (The other events either cannot occur while [PLAYING] or start
    a new session.) *)
Definition inSession (ev : Event) : bool :=
  match ev with
  | EvDrop _ | EvFrame _ _ => true
  | _ => false
  end.

(** The pending timeout that clears the feedback label of an earlier drop. *)
Definition isFeedbackTimer (w : World) (ev : Event) : bool :=
  match ev with
  | EvTimer n =>
      match nth_error (timers w) n with
      | Some CbClearFeedback => true
      | _ => false
      end
  | _ => false
  end.

(** [run] restricted to the events of one session: drops, frames and
    feedback timeouts. *)
Fixpoint runSession (evs : list Event) (w : World) : option World :=
  match evs with
  | [] => Some w
  | ev :: evs' =>
      if inSession ev || isFeedbackTimer w ev then
        match step ev w with
        | Some w' => runSession evs' w'
        | None => None
        end
      else None
  end.

(** A deferred session reset: a pending timeout other than the one that
    clears the feedback label. *)
Definition isResetTimer (w : World) (ev : Event) : bool :=
  match ev with
  | EvTimer n =>
      match nth_error (timers w) n with
      | Some (CbNextLevelReset _) | Some (CbStartGame _) => true
      | _ => false
      end
  | _ => false
  end.

(** [n] drops, each followed by the timeout that clears its feedback. *)
Definition dropsInPlace (n : nat) : list Event :=
  concat (repeat [EvDrop 0; EvTimer 0] n).

(** A player who never lets the hook leave the centre: each level of
    [cfgs] is completed with perfect drops and followed by "next level" and
    its deferred reset. *)
Definition playLevels (cfgs : list LevelConfig.t) : list Event :=
  flat_map (fun cfg => dropsInPlace (LevelConfig.targetBlocks cfg)
                       ++ [EvNext; EvTimer 0]) cfgs.

(** Play, nine levels completed and left, and the tenth completed. *)
Definition toLastLevelComplete : list Event :=
  EvPlay :: playLevels (firstn 9 LEVELS) ++ dropsInPlace 25.

(** The world after the events [evs] from the freshly mounted application
    (the initial world itself if some event of [evs] cannot occur). *)
Definition worldAfter (evs : list Event) : World :=
  match run evs initialWorld with
  | Some w => w
  | None => initialWorld
  end.

(** Level 1 just started, hook at the centre. *)
Definition worldStarted : World := worldAfter [EvPlay].

(** Level 1 just started, hook moved to 60 by a frame whose sine is 2/9. *)
Definition worldHook60 : World := worldAfter [EvPlay; EvFrame 16 (2 # 9)].

(** Level 1 completed with seven perfect drops. *)
Definition worldLevel1Done : World :=
  worldAfter (EvPlay :: repeat (EvDrop 0) 7).

(** Level 1 with two blocks placed: a Good drop at hook 60 and a Perfect
    drop on top of it. *)
Definition worldTwoBlocks : World :=
  worldAfter [EvPlay; EvFrame 16 (2 # 9); EvDrop 1; EvDrop 2].

(** Level 1 lost by a first drop with the hook at the right edge (95): the
    trimmed width would be 3. *)
Definition worldGameOver : World :=
  worldAfter [EvPlay; EvFrame 16 1; EvDrop 1].

(** ** Rendering

    The values that the JSX of [App] and the [StarRating] component compute
    from the state. *)


(** [Math.round] of a finite number: the nearest integer, halves upwards. *)
Definition Math_round (q : Q) : Z := Qfloor (q + (1 # 2)).

(** The accuracy shown on the level-complete screen,
    [Math.round((perfectCount / blocks.length) * 100)]; [None] is the [NaN]
    of an empty stack. *)
Definition accuracyPercent (r : State) : option Z :=
  let perfectCount := length (filter isPerfectTruthy (blocks r)) in
  match length (blocks r) with
  | O => None
  | S _ =>
      Some (Math_round (perfectRatio perfectCount (length (blocks r)) * 100))
  end.

Module StarRating.
(** What the component renders for one star. *)
Record star : Set := mkStar {
  index : Z;
  isFilled : bool;
  scaled : bool;           (** ['scale-110'] rather than ['scale-100'] *)
  floating : bool;         (** ['animate-float'] *)
  transitionDelay : Z      (** milliseconds *)
}.

(** The callback mapped over [[1, 2, 3]].  (Its local [delayClass] is never
    used.) *)
Definition renderStar (stars : Z) (animated : bool) (index : Z) : star :=
  let isFilled := (index <=? stars)%Z in
  {| index := index;
     isFilled := isFilled;
     scaled := animated && isFilled;
     floating := animated && isFilled;
     transitionDelay := ((index - 1) * 150)%Z |}.

Definition render (stars : Z) (animated : bool) : list star :=
  map (renderStar stars animated) [1%Z; 2%Z; 3%Z].
End StarRating.

(** The stars of the level-complete screen:
    [<StarRating stars={calculateStars()} animated={true} />]. *)
Definition levelCompleteStars (r : State) : list StarRating.star :=
  StarRating.render (calculateStars r) true.

(** [calculateStars] and the accuracy display for a stack of [len] blocks,
    [perfectCount] of them perfect, outside GameOver. *)
Definition starsOfCounts (perfectCount len : nat) : Z :=
  if Qle_bool (6 # 10) (perfectRatio perfectCount len) then 3%Z
  else if Qle_bool (3 # 10) (perfectRatio perfectCount len) then 2%Z
  else 1%Z.

Definition accuracyOfCounts (perfectCount len : nat) : Z :=
  Math_round (perfectRatio perfectCount len * 100).

(** The stars and the accuracy percentage tell the same story. *)
Definition displaysAgree (perfectCount len : nat) : bool :=
  let a := accuracyOfCounts perfectCount len in
  let s := starsOfCounts perfectCount len in
  (0 <=? a)%Z && (a <=? 100)%Z &&
  Bool.eqb (s =? 3)%Z (60 <=? a)%Z &&
  Bool.eqb (s =? 2)%Z ((30 <=? a)%Z && (a <? 60)%Z) &&
  Bool.eqb (s =? 1)%Z (a <? 30)%Z &&
  Bool.eqb (a =? 100)%Z (perfectCount =? len)%nat &&
  Bool.eqb (a =? 0)%Z (perfectCount =? 0)%nat.

(** ** Score, combo and camera as functions of the stack *)

(** The score that the drops which placed [bs] have added, bottom block
    first, when the combo was [c] before the first of them. *)
Fixpoint scoreFrom (c : Z) (bs : list Block.t) : Z :=
  match bs with
  | [] => 0%Z
  | b :: bs' =>
      if isPerfectTruthy b then (20 + 5 * c + scoreFrom (c + 1) bs')%Z
      else (10 + scoreFrom 0 bs')%Z
  end.

(** The combo after these drops. *)
Fixpoint comboFrom (c : Z) (bs : list Block.t) : Z :=
  match bs with
  | [] => c
  | b :: bs' =>
      if isPerfectTruthy b then comboFrom (c + 1) bs' else comboFrom 0 bs'
  end.

(** The camera offset for a stack of [n] blocks: nothing for the first three
    blocks, then one block height for each further block, except the block
    that completed the level. *)
Definition cameraFor (g : GameState) (n : nat) : Z :=
  match g with
  | LEVEL_COMPLETE => (BLOCK_HEIGHT * Z.max 0 (Z.of_nat n - 4))%Z
  | _ => (BLOCK_HEIGHT * Z.max 0 (Z.of_nat n - 3))%Z
  end.

(** The number of perfect blocks at the head of [l]. *)
Fixpoint perfectRun (l : list Block.t) : nat :=
  match l with
  | [] => O
  | b :: l' => if isPerfectTruthy b then S (perfectRun l') else O
  end.



(** What every placed block satisfies. *)
Definition blockOk (b : Block.t) : Prop :=
  Block.color b <> None /\ Block.isPerfect b <> None /\
  5 <= Block.x b /\ Block.x b <= 95.

(** The bookkeeping that the running application keeps next to [Inv]. *)
Record playInv (st : State) : Prop := {
  pi_index : forall i b, nth_error (blocks st) i = Some b -> Block.y b = i;
  pi_block : Forall blockOk (blocks st);
  pi_adjacent : forall i a b,
      nth_error (blocks st) i = Some a ->
      nth_error (blocks st) (S i) = Some b ->
      Block.width b == Block.width a - Qabs (Block.x b - Block.x a);
  pi_score : score st = scoreFrom 0 (blocks st);
  pi_combo : gameState st = PLAYING \/ gameState st = LEVEL_COMPLETE ->
             combo st = comboFrom 0 (blocks st);
  pi_camera : cameraY st = cameraFor (gameState st) (length (blocks st));
  pi_progress : forall cfg, gameState st = PLAYING ->
      currentLevelConfig st = Some cfg ->
      (length (blocks st) < LevelConfig.targetBlocks cfg)%nat;
  pi_length : (length (blocks st) <= 25)%nat
}.

(** ** Binary64 arithmetic

    A finite double is the rational it denotes.  [round64 q] is the double
    nearest to [q], ties going to the even significand, with the 53
    significant bits of binary64.  It is the result of an IEEE 754 addition,
    subtraction or multiplication whose exact result is [q], as long as that
    result is zero or lies in the normal range of binary64 (magnitude from
    [2^-1022] to below [2^1024]); all positions and widths of the game do.
    Comparisons of doubles and [Math.abs] are exact. *)

(** [floor (log2 q)] for a positive [q]. *)
Definition ilog2 (q : Q) : Z :=
  let e0 := (Z.log2 (Qnum q) - Z.log2 (Zpos (Qden q)))%Z in
  if Qle_bool (2 ^ e0) q then e0 else (e0 - 1)%Z.

(** The integer nearest to [t], halves to the even one. *)
Definition roundHalfEven (t : Q) : Z :=
  let f := Qfloor t in
  match Qcompare (t - inject_Z f) (1 # 2) with
  | Lt => f
  | Gt => (f + 1)%Z
  | Eq => if Z.even f then f else (f + 1)%Z
  end.

(** The double nearest to a positive [a]: a multiple of the unit in the
    last place [2 ^ (ilog2 a - 52)]. *)
Definition roundPos (a : Q) : Q :=
  let u := 2 ^ (ilog2 a - 52) in
  inject_Z (roundHalfEven (a / u)) * u.

Definition round64 (q : Q) : Q :=
  match Qnum q with
  | Z0 => 0
  | Zpos _ => roundPos q
  | Zneg _ => - roundPos (- q)
  end.

(** The unit roundoff [2^-53]. *)
Definition eps64 : Q := 1 # 9007199254740992.

(** ** The drop evaluation and the hook in binary64

    [handleDrop] and [updateHookPosition] with every arithmetic operation
    rounded as the engine rounds it.  The functions of [App] that do no
    floating-point arithmetic ([startGame], [nextLevel], [addNewBlock],
    [endGame], the callbacks) are the ones above. *)
Module F64.

Definition previousBlock (cfg : LevelConfig.t) (r : State) : Q * Q :=
  match blocks r with
  | [] => (50, round64 (LevelConfig.initialWidth cfg + 20))
  | b0 :: bs => let b := last bs b0 in (Block.x b, Block.width b)
  end.

Definition absDiff (cfg : LevelConfig.t) (r : State) : Q :=
  let currentX := hookX r in
  let diff := round64 (currentX - fst (previousBlock cfg r)) in
  Qabs diff.

Definition handleDrop (cfg : LevelConfig.t) (now : Z) (r st : State)
    : State * list Callback :=
  if negb (GameState_eqb (gameState r) PLAYING) || isDroppingRef st
  then (st, [])
  else
    let previous := previousBlock cfg r in
    let currentX := hookX r in
    let absDiff := absDiff cfg r in
    let overlapLimit :=
      round64 (round64 (currentBlockWidth r / 2)
               + round64 (snd previous / 2)) in
    if Qgt_bool absDiff (currentBlockWidth r) then
      (endGame false st, [])
    else if Qle_bool absDiff PERFECT_TOLERANCE then
      let st := setCombo (combo st + 1)%Z st in
      let st := setScore (score st + 20 + combo r * 5)%Z st in
      let st := setFeedback (Some perfect) st in
      addNewBlock cfg now r st true (currentBlockWidth r) (fst previous)
    else
      let st := setCombo 0 st in
      let penalty := absDiff in
      let newWidth := round64 (currentBlockWidth r - penalty) in
      if Qlt_bool newWidth 5 then
        (endGame false st, [])
      else
        let st := setScore (score st + 10)%Z st in
        let st := setFeedback (Some good) st in
        addNewBlock cfg now r st false newWidth currentX.

(** The double that the generator of [LEVELS] stores in [baseSpeed]:
    [1 + (levelNum * 0.2)]. *)
Definition baseSpeed (cfg : LevelConfig.t) : Q :=
  let levelNum := inject_Z (Z.of_nat (LevelConfig.levelNumber cfg)) in
  round64 (1 + round64 (levelNum * round64 (2 # 10))).

(** [speed] of [updateHookPosition]. *)
Definition hookSpeed (cfg : LevelConfig.t) (r : State) : Q :=
  let difficultyMultiplier :=
    round64 (1 + round64 (inject_Z (Z.of_nat (length (blocks r)))
                          * round64 (5 # 100))) in
  round64 (round64 (baseSpeed cfg * difficultyMultiplier)
           * round64 (2 # 1000)).

(** A render with [n] blocks placed. *)
Definition withBlocks (n : nat) : State :=
  setBlocks (repeat (Block.mk 0 0 0 0 None None) n) initialState.

(** The entry of the speed table for level index [i] and [n] blocks: it is
    within [10^-17] of [(1.2 + 0.2 i) * (20 + n) / 10000], positive, and
    below the entries for one more block and for the next level. *)
Definition speedEntryOk (i n : nat) : bool :=
  let s := hookSpeed (level_of_index i) (withBlocks n) in
  let closed :=
    ((12 + 2 * inject_Z (Z.of_nat i)) / 10)
    * ((20 + inject_Z (Z.of_nat n)) / 10000) in
  Qle_bool (Qabs (s - closed)) (1 # 100000000000000000)
  && Qlt_bool 0 s
  && Qlt_bool s (hookSpeed (level_of_index i) (withBlocks (S n)))
  && Qlt_bool s (hookSpeed (level_of_index (S i)) (withBlocks n)).

(** [updateHookPosition(time)]; [sinv] is the double that [Math.sin]
    returns. *)
Definition updateHookPosition (cfg : LevelConfig.t) (sinv : Q)
    (r st : State) : State :=
  if negb (GameState_eqb (gameState r) PLAYING) then st
  else
    let range := 45 in
    let x := round64 (50 + round64 (sinv * range)) in
    setHookX x st.

Definition animate (cfg : LevelConfig.t) (time sinv : Q) (r st : State)
    : State :=
  let st1 :=
    if startTime_unset st then setStartTimeRef (Some time) st else st in
  updateHookPosition cfg sinv r st1.

(** One event of the application, as [step] above. *)
Definition step (ev : Event) (w : World) : option World :=
  let st := state w in
  match currentLevelConfig st with
  | None => None
  | Some cfg =>
      match ev with
      | EvPlay =>
          if GameState_eqb (gameState st) MENU
          then Some (mkWorld (startGame cfg st) (timers w)) else None
      | EvNext =>
          if GameState_eqb (gameState st) LEVEL_COMPLETE
          then let (st', cbs) := nextLevel cfg st st in
               Some (mkWorld st' (timers w ++ cbs))
          else None
      | EvRetry =>
          if GameState_eqb (gameState st) LEVEL_COMPLETE
             || GameState_eqb (gameState st) GAME_OVER
          then Some (mkWorld (retryLevel cfg st) (timers w)) else None
      | EvMenu =>
          if GameState_eqb (gameState st) GAME_OVER
          then Some (mkWorld (setGameState MENU st) (timers w)) else None
      | EvDrop now =>
          let (st', cbs) := handleDrop cfg now st st in
          Some (mkWorld st' (timers w ++ cbs))
      | EvFrame time sinv =>
          if Qle_bool (-1) sinv && Qle_bool sinv 1
          then Some (mkWorld (animate cfg time sinv st st) (timers w))
          else None
      | EvTimer n =>
          match nth_error (timers w) n with
          | Some cb =>
              Some (mkWorld (runCallback cb st) (removeNth n (timers w)))
          | None => None
          end
      end
  end.

Fixpoint run (evs : list Event) (w : World) : option World :=
  match evs with
  | [] => Some w
  | ev :: evs' =>
      match step ev w with
      | Some w' => run evs' w'
      | None => None
      end
  end.

Definition reachable (w : World) : Prop :=
  exists evs, run evs initialWorld = Some w.

Definition worldAfter (evs : list Event) : World :=
  match run evs initialWorld with
  | Some w => w
  | None => initialWorld
  end.

(** Level 1 with two trimmed blocks: width 38 at 60 and, on top of it,
    width 33 at 55. *)
Definition twoTrimmed : list Event :=
  [EvPlay; EvFrame 16 (2 # 9); EvDrop 1; EvFrame 32 (1 # 9); EvDrop 2].

(** On that stack, the hook at 57, two units from the top block. *)
Definition worldNearTop : World :=
  worldAfter (twoTrimmed ++ [EvFrame 48 (7 # 45)]).

(** On that stack, the hook at 65, ten units from the top block. *)
Definition worldOffTop : World :=
  worldAfter (twoTrimmed ++ [EvFrame 48 (1 # 3)]).

(** On that stack, the hook at 85, thirty units from the top block. *)
Definition worldFarOff : World :=
  worldAfter (twoTrimmed ++ [EvFrame 48 (7 # 9)]).

(** Level 1 with one block of width 40 at 58 and the hook at the double
    just below 23, [23 - 2^-48]. *)
Definition worldBoundary : World :=
  worldAfter [EvPlay; EvFrame 16 (8 # 45); EvDrop 1;
              EvFrame 32 (- (27 + (1 # 281474976710656)) / 45)].

(** How block [b] sits on block [a] directly below it: snapped onto it
    with the same width, or off its centre by more than the tolerance and
    trimmed by that distance. *)
Definition stacked (a b : Block.t) : Prop :=
  (Block.isPerfect b = Some true /\ Block.x b = Block.x a /\
   Block.width b = Block.width a) \/
  (Block.isPerfect b = Some false /\
   3 < Qabs (round64 (Block.x b - Block.x a)) /\
   Qabs (round64 (Block.x b - Block.x a)) <= Block.width a /\
   Block.width b =
     round64 (Block.width a - Qabs (round64 (Block.x b - Block.x a)))).

Definition callbackOk (cb : Callback) : Prop :=
  match cb with
  | CbNextLevelReset i => (i + 1 < length LEVELS)%nat
  | CbStartGame cfg =>
      20 <= LevelConfig.initialWidth cfg /\ LevelConfig.initialWidth cfg <= 48
  | CbClearFeedback => True
  end.

(** What every event keeps. *)
Record Inv (w : World) : Prop := {
  fi_level : (currentLevelIdx (state w) < length LEVELS)%nat;
  fi_guard : isDroppingRef (state w) = false;
  fi_timers : Forall callbackOk (timers w);
  fi_width : gameState (state w) = MENU \/
             (5 <= currentBlockWidth (state w) /\
              currentBlockWidth (state w) <= 48);
  fi_top : match topWidth (blocks (state w)) with
           | Some wd => currentBlockWidth (state w) = wd
           | None => True
           end;
  fi_adjacent : forall i a b,
      nth_error (blocks (state w)) i = Some a ->
      nth_error (blocks (state w)) (S i) = Some b ->
      stacked a b
}.
End F64.

(** * Proofs *)

(** ** Comparisons *)

Lemma Qlt_bool_iff (a b : Q) : Qlt_bool a b = true <-> a < b.
Proof.
  unfold Qlt_bool. rewrite negb_true_iff. split; intro H.
  - apply Qnot_le_lt. intro Hle. apply Qle_bool_iff in Hle. congruence.
  - destruct (Qle_bool b a) eqn:E; [|reflexivity].
    apply Qle_bool_iff in E. exfalso. now apply (Qlt_not_le a b).
Qed.

Lemma Qlt_bool_false_iff (a b : Q) : Qlt_bool a b = false <-> b <= a.
Proof.
  unfold Qlt_bool. rewrite negb_false_iff. apply Qle_bool_iff.
Qed.

Lemma Qle_bool_false_iff (a b : Q) : Qle_bool a b = false <-> b < a.
Proof.
  split; intro H.
  - apply Qnot_le_lt. intro Hle. apply Qle_bool_iff in Hle. congruence.
  - destruct (Qle_bool a b) eqn:E; [|reflexivity].
    apply Qle_bool_iff in E. exfalso. now apply (Qlt_not_le b a).
Qed.

Lemma GameState_eqb_eq (a b : GameState) : GameState_eqb a b = true <-> a = b.
Proof. destruct a, b; simpl; split; congruence. Qed.

(** ** The level table *)

Lemma LEVELS_length : length LEVELS = 10%nat.
Proof. reflexivity. Qed.

Lemma LEVELS_nth (i : nat) (cfg : LevelConfig.t) :
  nth_error LEVELS i = Some cfg ->
  (i < MAX_LEVELS)%nat /\ cfg = level_of_index i.
Proof.
  intro H. assert (Hi : (i < MAX_LEVELS)%nat).
  { assert (Hn : nth_error LEVELS i <> None) by congruence.
    apply nth_error_Some in Hn. exact Hn. }
  split; [exact Hi|]. unfold LEVELS, MAX_LEVELS in *.
  cbn [seq map] in H.
  do 10 (destruct i as [|i]; [cbn [nth_error] in H; congruence|]). lia.
Qed.

Lemma LEVELS_all_ok : Forall levelOk LEVELS.
Proof.
  unfold LEVELS, MAX_LEVELS. simpl.
  repeat constructor; unfold Qle; simpl; lia.
Qed.

Lemma LEVELS_nth_ok (i : nat) (cfg : LevelConfig.t) :
  nth_error LEVELS i = Some cfg -> levelOk cfg.
Proof.
  intro H. apply nth_error_In in H.
  exact (proj1 (Forall_forall _ _) LEVELS_all_ok cfg H).
Qed.

Lemma currentLevelConfig_defined (st : State) :
  (currentLevelIdx st < length LEVELS)%nat ->
  exists cfg, currentLevelConfig st = Some cfg /\ levelOk cfg.
Proof.
  intro H. unfold currentLevelConfig.
  destruct (nth_error LEVELS (currentLevelIdx st)) as [cfg|] eqn:E.
  - exists cfg. split; [reflexivity | eapply LEVELS_nth_ok; eassumption].
  - apply nth_error_None in E. lia.
Qed.

Lemma currentLevelConfig_bound (st : State) (cfg : LevelConfig.t) :
  currentLevelConfig st = Some cfg ->
  (currentLevelIdx st < length LEVELS)%nat /\ levelOk cfg.
Proof.
  intro H. split.
  - apply nth_error_Some. unfold currentLevelConfig in H. congruence.
  - eapply LEVELS_nth_ok; eassumption.
Qed.

(** ** The four exits of [handleDrop] *)

Section Drop.
Variables (cfg : LevelConfig.t) (now : Z) (st : State).
Hypothesis Hplaying : gameState st = PLAYING.
Hypothesis Hguard : isDroppingRef st = false.

Lemma handleDrop_total_miss :
  currentBlockWidth st < absDiff cfg st ->
  handleDrop cfg now st st = (endGame false st, []).
Proof.
  intro H. unfold handleDrop. rewrite Hplaying, Hguard.
  cbn [GameState_eqb negb orb]. cbv zeta. unfold Qgt_bool.
  now rewrite (proj2 (Qlt_bool_iff _ _) H).
Qed.

Lemma handleDrop_perfect :
  absDiff cfg st <= currentBlockWidth st ->
  absDiff cfg st <= PERFECT_TOLERANCE ->
  handleDrop cfg now st st =
  addNewBlock cfg now st
    (setFeedback (Some perfect)
       (setScore (score st + 20 + combo st * 5)%Z
          (setCombo (combo st + 1)%Z st)))
    true (currentBlockWidth st) (fst (previousBlock cfg st)).
Proof.
  intros H1 H2. unfold handleDrop. rewrite Hplaying, Hguard.
  cbn [GameState_eqb negb orb]. cbv zeta. unfold Qgt_bool.
  rewrite (proj2 (Qlt_bool_false_iff _ _) H1).
  now rewrite (proj2 (Qle_bool_iff _ _) H2).
Qed.

Lemma handleDrop_trim_miss :
  absDiff cfg st <= currentBlockWidth st ->
  PERFECT_TOLERANCE < absDiff cfg st ->
  currentBlockWidth st - absDiff cfg st < 5 ->
  handleDrop cfg now st st = (endGame false (setCombo 0 st), []).
Proof.
  intros H1 H2 H3. unfold handleDrop. rewrite Hplaying, Hguard.
  cbn [GameState_eqb negb orb]. cbv zeta. unfold Qgt_bool.
  rewrite (proj2 (Qlt_bool_false_iff _ _) H1).
  rewrite (proj2 (Qle_bool_false_iff _ _) H2).
  now rewrite (proj2 (Qlt_bool_iff _ _) H3).
Qed.

Lemma handleDrop_good :
  absDiff cfg st <= currentBlockWidth st ->
  PERFECT_TOLERANCE < absDiff cfg st ->
  5 <= currentBlockWidth st - absDiff cfg st ->
  handleDrop cfg now st st =
  addNewBlock cfg now st
    (setFeedback (Some good) (setScore (score st + 10)%Z (setCombo 0 st)))
    false (currentBlockWidth st - absDiff cfg st) (hookX st).
Proof.
  intros H1 H2 H3. unfold handleDrop. rewrite Hplaying, Hguard.
  cbn [GameState_eqb negb orb]. cbv zeta. unfold Qgt_bool.
  rewrite (proj2 (Qlt_bool_false_iff _ _) H1).
  rewrite (proj2 (Qle_bool_false_iff _ _) H2).
  now rewrite (proj2 (Qlt_bool_false_iff _ _) H3).
Qed.

(** Exactly one of the four exits is taken. *)
Lemma handleDrop_exits :
  currentBlockWidth st < absDiff cfg st \/
  (absDiff cfg st <= currentBlockWidth st /\
   absDiff cfg st <= PERFECT_TOLERANCE) \/
  (absDiff cfg st <= currentBlockWidth st /\
   PERFECT_TOLERANCE < absDiff cfg st /\
   currentBlockWidth st - absDiff cfg st < 5) \/
  (absDiff cfg st <= currentBlockWidth st /\
   PERFECT_TOLERANCE < absDiff cfg st /\
   5 <= currentBlockWidth st - absDiff cfg st).
Proof.
  destruct (Qlt_le_dec (currentBlockWidth st) (absDiff cfg st)) as [H|H];
    [now left | right].
  destruct (Qlt_le_dec PERFECT_TOLERANCE (absDiff cfg st)) as [H2|H2];
    [right | now left].
  destruct (Qlt_le_dec (currentBlockWidth st - absDiff cfg st) 5) as [H3|H3];
    [left | right]; auto.
Qed.
End Drop.

(** ** What [addNewBlock] stores *)

Ltac qlra := Lqa.lra.

Lemma addNewBlock_fields (cfg : LevelConfig.t) (now : Z) (r st : State)
    (p : bool) (nw px : Q) :
  let res := fst (addNewBlock cfg now r st p nw px) in
  let nb := newBlock cfg now r p nw px in
  blocks res = blocks r ++ [nb] /\
  currentBlockWidth res = Block.width nb /\
  gameState res =
    (if (LevelConfig.targetBlocks cfg <=? length (blocks r ++ [nb]))%nat
     then LEVEL_COMPLETE else gameState st) /\
  score res = score st /\ combo res = combo st /\
  feedback res = feedback st /\
  currentLevelIdx res = currentLevelIdx st /\
  hookX res = hookX st /\ isDroppingRef res = isDroppingRef st /\
  startTimeRef res = startTimeRef st /\
  snd (addNewBlock cfg now r st p nw px) = [CbClearFeedback].
Proof.
  unfold addNewBlock. cbv zeta.
  destruct (LevelConfig.targetBlocks cfg <=? _)%nat;
    [|destruct (3 <? _)%nat]; simpl; repeat split; reflexivity.
Qed.

(** ** Pushing a block keeps the stack discipline *)

Lemma last_cons_default (l : list Block.t) (a d d' : Block.t) :
  last (a :: l) d = last (a :: l) d'.
Proof.
  revert a. induction l as [|c l IH]; intro a; [reflexivity|].
  change (last (c :: l) d = last (c :: l) d'). apply IH.
Qed.

Lemma nth_error_top (b0 : Block.t) (bs : list Block.t) :
  nth_error (b0 :: bs) (length bs) = Some (last bs b0).
Proof.
  revert b0. induction bs as [|a bs IH]; intro b0; [reflexivity|].
  cbn [length nth_error]. rewrite IH. f_equal.
  destruct bs as [|c bs]; [reflexivity|].
  change (last (c :: bs) a = last (c :: bs) b0). apply last_cons_default.
Qed.

Lemma topWidth_snoc (bs : list Block.t) (b : Block.t) :
  topWidth (bs ++ [b]) = Some (Block.width b).
Proof.
  destruct bs as [|b0 bs]; simpl; [reflexivity|].
  now rewrite last_last.
Qed.

Lemma nonIncreasing_snoc (bs : list Block.t) (b : Block.t) :
  nonIncreasing bs ->
  (forall b', In b' bs -> Block.width b <= Block.width b') ->
  nonIncreasing (bs ++ [b]).
Proof.
  intros Hs Hb i j b1 b2 Hij H1 H2.
  destruct (Nat.lt_ge_cases j (length bs)) as [Hj|Hj].
  - rewrite nth_error_app1 in H1, H2 by lia. eauto.
  - rewrite nth_error_app2 in H2 by lia.
    assert (b2 = b) as ->.
    { destruct (j - length bs)%nat as [|[|k]]; simpl in H2; congruence. }
    destruct (Nat.lt_ge_cases i (length bs)) as [Hi|Hi].
    + rewrite nth_error_app1 in H1 by lia.
      apply Hb. eapply nth_error_In; eassumption.
    + rewrite nth_error_app2 in H1 by lia.
      assert (b1 = b) as ->.
      { destruct (i - length bs)%nat as [|[|k]]; simpl in H1; congruence. }
      apply Qle_refl.
Qed.

Lemma stackInv_push (cfg : LevelConfig.t) (now : Z) (r st : State)
    (p : bool) (nw px : Q) :
  stackInv r -> levelOk cfg ->
  5 <= Block.width (newBlock cfg now r p nw px) ->
  Block.width (newBlock cfg now r p nw px) <= currentBlockWidth r ->
  gameState st <> LEVEL_COMPLETE ->
  stackInv (fst (addNewBlock cfg now r st p nw px)).
Proof.
  intros Hr Hcfg Hmin Hle Hgs.
  destruct (addNewBlock_fields cfg now r st p nw px)
    as (Hb & Hw & Hg & _).
  set (res := fst (addNewBlock cfg now r st p nw px)) in *.
  set (nb := newBlock cfg now r p nw px) in *.
  assert (Habove : forall b', In b' (blocks r) ->
                     Block.width nb <= Block.width b').
  { intros b' Hin. eapply Qle_trans; [exact Hle|].
    now apply (inv_above r Hr). }
  constructor.
  - rewrite Hb. apply Forall_app. split; [apply (inv_min r Hr)|].
    constructor; [exact Hmin | constructor].
  - rewrite Hb.
    apply nonIncreasing_snoc; [apply (inv_sorted r Hr)|exact Habove].
  - rewrite Hb, Hw. intros b' Hin. apply in_app_or in Hin.
    destruct Hin as [Hin|[<-|[]]]; [now apply Habove | apply Qle_refl].
  - rewrite Hb, Hw, topWidth_snoc. reflexivity.
  - now rewrite Hw.
  - rewrite Hg, Hb. intro Hc.
    destruct (LevelConfig.targetBlocks cfg <=? length (blocks r ++ [nb]))%nat
      eqn:E; [|contradiction].
    apply Nat.leb_le in E. destruct Hcfg as [_ Ht]. lia.
Qed.

(** ** Every event keeps the invariant *)

Lemma stackInv_ext (st st' : State) :
  blocks st' = blocks st -> currentBlockWidth st' = currentBlockWidth st ->
  (gameState st' = LEVEL_COMPLETE -> gameState st = LEVEL_COMPLETE) ->
  stackInv st -> stackInv st'.
Proof.
  intros Hb Hw Hg [H1 H2 H3 H4 H5 H6].
  constructor; rewrite ?Hb, ?Hw; auto.
Qed.

Lemma stackInv_fresh (st : State) :
  blocks st = [] -> 20 <= currentBlockWidth st -> gameState st = PLAYING ->
  stackInv st.
Proof.
  intros Hb Hw Hg. constructor; rewrite ?Hb; simpl; auto.
  - intros i j b1 b2 _ H. destruct i; discriminate.
  - intros b [].
  - qlra.
  - congruence.
Qed.

Lemma startGame_stackInv (cfg : LevelConfig.t) (st : State) :
  levelOk cfg -> stackInv (startGame cfg st).
Proof.
  intros [Hw _]. apply stackInv_fresh; simpl; auto.
Qed.

Lemma nextLevelReset_stackInv (i : nat) (st : State) :
  (i + 1 < length LEVELS)%nat -> stackInv (nextLevelReset i st).
Proof.
  intro Hi. unfold nextLevelReset.
  destruct (nth_error LEVELS (i + 1)) as [next|] eqn:E.
  - apply stackInv_fresh; simpl; auto.
    apply (LEVELS_nth_ok _ _ E).
  - apply nth_error_None in E. lia.
Qed.

Lemma absDiff_nonneg (cfg : LevelConfig.t) (st : State) : 0 <= absDiff cfg st.
Proof. unfold absDiff. apply Qabs_nonneg. Qed.

Lemma tolerance_value : PERFECT_TOLERANCE == 3.
Proof. reflexivity. Qed.

Lemma handleDrop_Inv (w : World) (cfg : LevelConfig.t) (now : Z) :
  Inv w -> currentLevelConfig (state w) = Some cfg ->
  Inv (mkWorld (fst (handleDrop cfg now (state w) (state w)))
               (timers w ++ snd (handleDrop cfg now (state w) (state w)))).
Proof.
  intros [Hbase Hst] Hcfg. destruct w as [st tm]. simpl in *.
  destruct (currentLevelConfig_bound _ _ Hcfg) as [_ Hok].
  destruct (GameState_eqb (gameState st) PLAYING) eqn:Eg.
  2:{ unfold handleDrop. rewrite Eg. simpl. rewrite app_nil_r.
      split; assumption. }
  apply GameState_eqb_eq in Eg.
  destruct Hst as [Hns|Hst];
    [destruct Hns as [Hm _]; simpl in Hm; congruence|].
  destruct Hbase as [B1 B2 B3 B4 B5 B6]. simpl in *.
  pose proof (absDiff_nonneg cfg st) as Hd.
  pose proof tolerance_value as Htol.
  pose proof (inv_pending_min st Hst) as Hpw.
  destruct (handleDrop_exits cfg st) as [H|[[H1 H2]|[(H1&H2&H3)|(H1&H2&H3)]]].
  - rewrite (handleDrop_total_miss cfg now st Eg B2 H). simpl.
    rewrite app_nil_r. split; [constructor; simpl; auto|right].
    apply (stackInv_ext st); simpl; auto; discriminate.
  - rewrite (handleDrop_perfect cfg now st Eg B2 H1 H2).
    match goal with |- context [addNewBlock cfg now st ?s ?p ?a ?b] =>
      destruct (addNewBlock_fields cfg now st s p a b)
        as (Fb & Fw & Fg & Fs & Fc & _ & Fi & Fh & Fd & _ & Ft);
      pose proof (stackInv_push cfg now st s p a b Hst Hok) as Hpush
    end.
    simpl in Fs, Fc, Fi, Fh, Fd.
    split; [constructor; simpl|right].
    + now rewrite Fi.
    + now rewrite Fd.
    + rewrite Fc. lia.
    + rewrite Fs. lia.
    + now rewrite Fh.
    + rewrite Ft. apply Forall_app. split; [assumption|].
      constructor; [exact I|constructor].
    + simpl. apply Hpush; simpl; try qlra. congruence.
  - rewrite (handleDrop_trim_miss cfg now st Eg B2 H1 H2 H3). simpl.
    rewrite app_nil_r. split; [constructor; simpl; auto; lia|right].
    apply (stackInv_ext st); simpl; auto; discriminate.
  - rewrite (handleDrop_good cfg now st Eg B2 H1 H2 H3).
    match goal with |- context [addNewBlock cfg now st ?s ?p ?a ?b] =>
      destruct (addNewBlock_fields cfg now st s p a b)
        as (Fb & Fw & Fg & Fs & Fc & _ & Fi & Fh & Fd & _ & Ft);
      pose proof (stackInv_push cfg now st s p a b Hst Hok) as Hpush
    end.
    simpl in Fs, Fc, Fi, Fh, Fd.
    split; [constructor; simpl|right].
    + now rewrite Fi.
    + now rewrite Fd.
    + rewrite Fc. lia.
    + rewrite Fs. lia.
    + now rewrite Fh.
    + rewrite Ft. apply Forall_app. split; [assumption|].
      constructor; [exact I|constructor].
    + simpl. apply Hpush; simpl; try qlra. congruence.
Qed.

Lemma removeNth_incl {A : Type} (n : nat) (l : list A) (a : A) :
  In a (removeNth n l) -> In a l.
Proof.
  unfold removeNth. revert l.
  induction n as [|n IH]; intros [|c t] H; simpl in H; try contradiction.
  - now right.
  - destruct H as [H|H]; [now left | right; now apply IH].
Qed.

Lemma nextLevelReset_fields (i : nat) (st : State) :
  let res := nextLevelReset i st in
  currentLevelIdx res = currentLevelIdx st /\
  isDroppingRef res = isDroppingRef st /\
  hookX res = hookX st /\ combo res = 0%Z /\ score res = 0%Z /\
  blocks res = [].
Proof.
  unfold nextLevelReset. destruct (nth_error LEVELS (i + 1)); simpl; auto 10.
Qed.

Lemma hook_sample_range (sinv : Q) :
  -1 <= sinv -> sinv <= 1 -> 5 <= 50 + sinv * 45 /\ 50 + sinv * 45 <= 95.
Proof. intros. split; qlra. Qed.

Lemma animate_fields (cfg : LevelConfig.t) (time sinv : Q) (st : State) :
  let res := animate cfg time sinv st st in
  gameState res = gameState st /\ currentLevelIdx res = currentLevelIdx st /\
  blocks res = blocks st /\ currentBlockWidth res = currentBlockWidth st /\
  score res = score st /\ combo res = combo st /\
  isDroppingRef res = isDroppingRef st /\
  hookX res = (if GameState_eqb (gameState st) PLAYING
               then 50 + sinv * 45 else hookX st).
Proof.
  unfold animate, updateHookPosition.
  destruct (startTime_unset st), (GameState_eqb (gameState st) PLAYING);
    simpl; auto 10.
Qed.

Lemma step_Inv (ev : Event) (w w' : World) :
  Inv w -> step ev w = Some w' -> Inv w'.
Proof.
  intros HI Hstep. unfold step in Hstep.
  destruct (currentLevelConfig (state w)) as [cfg|] eqn:Hcfg; [|discriminate].
  destruct (currentLevelConfig_bound _ _ Hcfg) as [Hidx Hok].
  destruct ev as [ | | | |now|time sinv|n].
  - (* EvPlay *)
    destruct (GameState_eqb _ MENU); [|discriminate].
    injection Hstep as <-. destruct HI as [[B1 B2 B3 B4 B5 B6] _].
    split; [constructor; simpl; auto; lia|right].
    now apply startGame_stackInv.
  - (* EvNext *)
    destruct (GameState_eqb _ LEVEL_COMPLETE) eqn:Eg; [|discriminate].
    apply GameState_eqb_eq in Eg.
    destruct HI as [[B1 B2 B3 B4 B5 B6] [[Hm _]|Hst]]; [congruence|].
    unfold nextLevel in Hstep.
    destruct (currentLevelIdx (state w) <? length LEVELS - 1)%nat eqn:El;
      injection Hstep as <-.
    + apply Nat.ltb_lt in El. rewrite LEVELS_length in El.
      split; [constructor; simpl; auto; try lia|right].
      * apply Forall_app. split; [assumption|].
        constructor; [simpl; lia|constructor].
      * apply (stackInv_ext (state w)); simpl; auto.
    + split; [constructor; simpl; auto; try lia|right].
      * apply Forall_app. split; [assumption|].
        constructor; [exact Hok|constructor].
      * apply (stackInv_ext (state w)); simpl; auto.
  - (* EvRetry *)
    destruct (_ || _); [|discriminate].
    injection Hstep as <-. destruct HI as [[B1 B2 B3 B4 B5 B6] _].
    split; [constructor; simpl; auto; lia|right].
    now apply startGame_stackInv.
  - (* EvMenu *)
    destruct (GameState_eqb _ GAME_OVER) eqn:Eg; [|discriminate].
    apply GameState_eqb_eq in Eg. injection Hstep as <-.
    destruct HI as [[B1 B2 B3 B4 B5 B6] [[Hm _]|Hst]]; [congruence|].
    split; [constructor; simpl; auto|right].
    apply (stackInv_ext (state w)); simpl; auto; discriminate.
  - (* EvDrop *)
    pose proof (handleDrop_Inv w cfg now HI Hcfg) as H.
    destruct (handleDrop cfg now (state w) (state w)) as [st' cbs].
    injection Hstep as <-. exact H.
  - (* EvFrame *)
    destruct (Qle_bool (-1) sinv && Qle_bool sinv 1) eqn:Er; [|discriminate].
    apply andb_true_iff in Er. destruct Er as [Er1 Er2].
    apply Qle_bool_iff in Er1, Er2. injection Hstep as <-.
    destruct (animate_fields cfg time sinv (state w))
      as (Fg & Fi & Fb & Fw & Fs & Fc & Fd & Fh).
    destruct HI as [[B1 B2 B3 B4 B5 B6] Hst].
    split; [constructor; simpl; rewrite ?Fi, ?Fd, ?Fc, ?Fs; auto|].
    + rewrite Fh. destruct (GameState_eqb _ _); [|assumption].
      now apply hook_sample_range.
    + destruct Hst as [(N1 & N2 & N3 & N4)|Hst]; [left|right].
      * unfold neverStarted. cbn [state timers]. rewrite Fg, Fb, Fw. auto.
      * cbn [state]. apply (stackInv_ext (state w)); auto. now rewrite Fg.
  - (* EvTimer *)
    destruct (nth_error (timers w) n) as [cb|] eqn:En; [|discriminate].
    injection Hstep as <-.
    destruct HI as [[B1 B2 B3 B4 B5 B6] Hst].
    assert (Hcb : callbackOk cb).
    { apply nth_error_In in En.
      exact (proj1 (Forall_forall _ _) B6 cb En). }
    assert (Htm : Forall callbackOk (removeNth n (timers w))).
    { apply Forall_forall. intros c Hc. apply removeNth_incl in Hc.
      exact (proj1 (Forall_forall _ _) B6 c Hc). }
    destruct Hst as [(_ & _ & _ & N4)|Hst].
    { rewrite N4 in En. destruct n; discriminate. }
    destruct cb as [i|c| ]; simpl in *.
    + destruct (nextLevelReset_fields i (state w))
        as (Fi & Fd & Fh & Fc & Fs & _).
      split; [constructor; simpl; rewrite ?Fi, ?Fd, ?Fc, ?Fs, ?Fh; auto; lia|].
      right. now apply nextLevelReset_stackInv.
    + split; [constructor; simpl; auto; lia|right].
      now apply startGame_stackInv.
    + split; [constructor; simpl; auto|right].
      apply (stackInv_ext (state w)); simpl; auto.
Qed.

Lemma initialWorld_Inv : Inv initialWorld.
Proof.
  split; [constructor; simpl; auto; try lia|left].
  - unfold Qle; simpl; lia.
  - repeat split.
Qed.

Lemma run_Inv (evs : list Event) (w w' : World) :
  Inv w -> run evs w = Some w' -> Inv w'.
Proof.
  revert w. induction evs as [|ev evs IH]; intros w HI Hrun; simpl in Hrun.
  - now injection Hrun as <-.
  - destruct (step ev w) as [w1|] eqn:E; [|discriminate].
    eapply IH; [eapply step_Inv; eassumption | exact Hrun].
Qed.

Lemma reachable_Inv (w : World) : reachable w -> Inv w.
Proof. intros [evs H]. exact (run_Inv evs _ _ initialWorld_Inv H). Qed.

Lemma reachable_step (ev : Event) (w w' : World) :
  reachable w -> step ev w = Some w' -> reachable w'.
Proof.
  intros [evs H] Hs. exists (evs ++ [ev]).
  revert H. generalize initialWorld.
  induction evs as [|e evs IH]; intros w0 H; simpl in *.
  - injection H as ->. now rewrite Hs.
  - destruct (step e w0); [now apply IH | discriminate].
Qed.

(** ** Drops from a reachable state *)

Lemma step_drop (w : World) (cfg : LevelConfig.t) (now : Z) :
  currentLevelConfig (state w) = Some cfg ->
  step (EvDrop now) w =
  Some (mkWorld (fst (handleDrop cfg now (state w) (state w)))
                (timers w ++ snd (handleDrop cfg now (state w) (state w)))).
Proof.
  intro H. unfold step. rewrite H.
  now destruct (handleDrop cfg now (state w) (state w)).
Qed.

Lemma reachable_playing (w : World) :
  reachable w -> gameState (state w) = PLAYING ->
  isDroppingRef (state w) = false /\ (0 <= combo (state w))%Z /\
  stackInv (state w).
Proof.
  intros Hr Hp. destruct (reachable_Inv w Hr) as [Hb [[Hm _]|Hs]].
  - congruence.
  - split; [apply (inv_guard w Hb)|]. split; [apply (inv_combo w Hb)|].
    exact Hs.
Qed.

Lemma reachable_config (w : World) :
  reachable w -> exists cfg, currentLevelConfig (state w) = Some cfg.
Proof.
  intro Hr. destruct (reachable_Inv w Hr) as [Hb _].
  destruct (currentLevelConfig_defined _ (inv_level w Hb)) as (cfg & H & _).
  now exists cfg.
Qed.


Lemma worldHook60_reachable : reachable worldHook60.
Proof. exists [EvPlay; EvFrame 16 (2 # 9)]. vm_compute. reflexivity. Qed.

(** The four exits of [handleDrop] at a reachable Playing state, with what
    each one stores. *)
Lemma drop_outcome (w : World) (cfg : LevelConfig.t) (now : Z) :
  reachable w -> gameState (state w) = PLAYING ->
  currentLevelConfig (state w) = Some cfg ->
  exists w',
    step (EvDrop now) w = Some w' /\
    let st := state w in
    let st' := state w' in
    let d := absDiff cfg st in
    let pw := currentBlockWidth st in
    (pw < d /\ st' = endGame false st) \/
    (d <= pw /\ d <= PERFECT_TOLERANCE /\
     exists b, placed cfg st st' b perfect /\
       Block.isPerfect b = Some true /\
       Block.width b = pw /\ Block.x b = fst (previousBlock cfg st) /\
       score st' = (score st + 20 + combo st * 5)%Z /\
       combo st' = (combo st + 1)%Z) \/
    (d <= pw /\ PERFECT_TOLERANCE < d /\ pw - d < 5 /\
     st' = endGame false (setCombo 0 st)) \/
    (d <= pw /\ PERFECT_TOLERANCE < d /\ 5 <= pw - d /\
     exists b, placed cfg st st' b good /\
       Block.isPerfect b = Some false /\
       Block.width b = pw - d /\ Block.x b = hookX st /\
       score st' = (score st + 10)%Z /\ combo st' = 0%Z).
Proof.
  intros Hr Hp Hcfg.
  destruct (reachable_playing w Hr Hp) as (Hg & _ & Hs).
  eexists. split; [apply (step_drop w cfg now Hcfg)|].
  cbn [state].
  destruct (handleDrop_exits cfg (state w))
    as [H|[[H1 H2]|[(H1&H2&H3)|(H1&H2&H3)]]].
  - left. split; [assumption|].
    now rewrite (handleDrop_total_miss cfg now _ Hp Hg H).
  - right; left. split; [assumption|]. split; [assumption|].
    rewrite (handleDrop_perfect cfg now _ Hp Hg H1 H2).
    match goal with |- context [addNewBlock cfg now ?r ?s ?p ?a ?c] =>
      destruct (addNewBlock_fields cfg now r s p a c)
        as (Fb & Fw & Fgs & Fs & Fc & Ff & _);
      exists (newBlock cfg now r p a c)
    end.
    unfold placed. rewrite Fb, Fw, Fs, Fc, Ff, Fgs.
    cbn [score combo feedback gameState setFeedback setScore setCombo
         newBlock Block.width Block.x Block.isPerfect].
    rewrite Hp. repeat split; reflexivity.
  - right; right; left. repeat (split; [assumption|]).
    now rewrite (handleDrop_trim_miss cfg now _ Hp Hg H1 H2 H3).
  - right; right; right. repeat (split; [assumption|]).
    rewrite (handleDrop_good cfg now _ Hp Hg H1 H2 H3).
    match goal with |- context [addNewBlock cfg now ?r ?s ?p ?a ?c] =>
      destruct (addNewBlock_fields cfg now r s p a c)
        as (Fb & Fw & Fgs & Fs & Fc & Ff & _);
      exists (newBlock cfg now r p a c)
    end.
    unfold placed. rewrite Fb, Fw, Fs, Fc, Ff, Fgs.
    cbn [score combo feedback gameState setFeedback setScore setCombo
         newBlock Block.width Block.x Block.isPerfect].
    rewrite Hp. repeat split; reflexivity.
Qed.

Lemma placed_not_over (cfg : LevelConfig.t) (st st' : State) (b : Block.t)
    (fb : FeedbackType) :
  placed cfg st st' b fb -> gameState st' <> GAME_OVER.
Proof.
  intros (_ & _ & _ & Hg). rewrite Hg.
  destruct (_ <=? _)%nat; discriminate.
Qed.

(** ** Rounding to binary64 *)

Lemma pow2_pos (e : Z) : 0 < 2 ^ e.
Proof. apply Qpower_0_lt. reflexivity. Qed.

Lemma pow2_inject (n : Z) : (0 <= n)%Z -> 2 ^ n == inject_Z (2 ^ n).
Proof. intros Hn. rewrite Zpower_Qpower by exact Hn. reflexivity. Qed.

(** [ilog2] does not overshoot. *)
Lemma ilog2_le (q : Q) : 0 < q -> 2 ^ ilog2 q <= q.
Proof.
  intros Hq. unfold ilog2.
  destruct (Qle_bool (2 ^ (Z.log2 (Qnum q) - Z.log2 (Z.pos (Qden q)))) q) eqn:E.
  - apply Qle_bool_iff. exact E.
  - clear E.
    destruct q as [n d]. cbn [Qnum Qden].
    assert (Hn : (0 < n)%Z).
    { unfold Qlt in Hq. cbn in Hq. lia. }
    pose proof (Z.log2_spec n Hn) as [Hn1 _].
    pose proof (Z.log2_spec (Z.pos d) (Pos2Z.is_pos d)) as [_ Hd2].
    pose proof (Z.log2_nonneg n) as Hln.
    pose proof (Z.log2_nonneg (Z.pos d)) as Hld.
    replace (Z.log2 n - Z.log2 (Z.pos d) - 1)%Z
      with (Z.log2 n + - Z.succ (Z.log2 (Z.pos d)))%Z by lia.
    rewrite Qpower_plus by discriminate.
    rewrite Qpower_opp.
    rewrite (pow2_inject (Z.log2 n)) by lia.
    rewrite (pow2_inject (Z.succ (Z.log2 (Z.pos d)))) by lia.
    set (A := (2 ^ Z.log2 n)%Z) in *.
    set (B := (2 ^ Z.succ (Z.log2 (Z.pos d)))%Z) in *.
    assert (HB : (0 < B)%Z) by lia.
    assert (HA : (0 < A)%Z) by (apply Z.pow_pos_nonneg; lia).
    destruct B as [|b|b]; try lia.
    unfold Qle, Qmult, Qinv, inject_Z. cbn [Qnum Qden].
    nia.
Qed.

(** [ilog2] does not undershoot either: it is the binary exponent. *)
Lemma ilog2_lt (q : Q) : 0 < q -> q < 2 ^ (ilog2 q + 1).
Proof.
  intros Hq. unfold ilog2.
  destruct (Qle_bool (2 ^ (Z.log2 (Qnum q) - Z.log2 (Z.pos (Qden q)))) q) eqn:E.
  - clear E. destruct q as [n d]. cbn [Qnum Qden].
    assert (Hn : (0 < n)%Z).
    { unfold Qlt in Hq. cbn in Hq. lia. }
    pose proof (Z.log2_spec n Hn) as [_ Hn2].
    pose proof (Z.log2_spec (Z.pos d) (Pos2Z.is_pos d)) as [Hd1 _].
    pose proof (Z.log2_nonneg n) as Hln.
    pose proof (Z.log2_nonneg (Z.pos d)) as Hld.
    replace (Z.log2 n - Z.log2 (Z.pos d) + 1)%Z
      with (Z.succ (Z.log2 n) + - Z.log2 (Z.pos d))%Z by lia.
    rewrite Qpower_plus by discriminate.
    rewrite Qpower_opp.
    rewrite (pow2_inject (Z.succ (Z.log2 n))) by lia.
    rewrite (pow2_inject (Z.log2 (Z.pos d))) by lia.
    set (A := (2 ^ Z.succ (Z.log2 n))%Z) in *.
    set (B := (2 ^ Z.log2 (Z.pos d))%Z) in *.
    assert (HB : (0 < B)%Z) by (apply Z.pow_pos_nonneg; lia).
    destruct B as [|b|b]; try lia.
    unfold Qlt, Qmult, Qinv, inject_Z. cbn [Qnum Qden].
    nia.
  - apply Qle_bool_false_iff in E.
    replace (Z.log2 (Qnum q) - Z.log2 (Z.pos (Qden q)) - 1 + 1)%Z
      with (Z.log2 (Qnum q) - Z.log2 (Z.pos (Qden q)))%Z by lia.
    exact E.
Qed.

Lemma roundHalfEven_error (t : Q) :
  Qabs (inject_Z (roundHalfEven t) - t) <= 1 # 2.
Proof.
  unfold roundHalfEven.
  pose proof (Qfloor_le t) as Hl.
  pose proof (Qlt_floor t) as Hu.
  rewrite inject_Z_plus in Hu. change (inject_Z 1) with 1 in Hu.
  destruct (Qcompare (t - inject_Z (Qfloor t)) (1 # 2)) eqn:E.
  - apply Qeq_alt in E.
    destruct (Z.even (Qfloor t)).
    + apply Qabs_case; intros; qlra.
    + rewrite inject_Z_plus; change (inject_Z 1) with 1.
      apply Qabs_case; intros; qlra.
  - apply Qlt_alt in E. apply Qabs_case; intros; qlra.
  - apply Qgt_alt in E. rewrite inject_Z_plus; change (inject_Z 1) with 1.
    apply Qabs_case; intros; qlra.
Qed.

Lemma roundPos_error (a : Q) :
  0 < a -> Qabs (roundPos a - a) <= a * eps64.
Proof.
  intros Ha. unfold roundPos.
  pose proof (ilog2_le a Ha) as He.
  set (e := ilog2 a) in *.
  assert (Hu : 2 ^ (e - 52) == 2 ^ e * (1 # 4503599627370496)).
  { replace (e - 52)%Z with (e + - 52)%Z by lia.
    rewrite Qpower_plus by discriminate. reflexivity. }
  pose proof (pow2_pos (e - 52)) as Hpos.
  set (u := 2 ^ (e - 52)) in *.
  pose proof (roundHalfEven_error (a / u)) as Hr.
  set (z := inject_Z (roundHalfEven (a / u))) in *.
  assert (Ht : a == (a / u) * u).
  { field. intros H0. rewrite H0 in Hpos. discriminate. }
  set (t := a / u) in *.
  unfold eps64.
  assert (Hd : Qabs (z * u - a) == Qabs (z - t) * u).
  { rewrite Ht at 1.
    setoid_replace (z * u - t * u) with ((z - t) * u) by ring.
    rewrite Qabs_Qmult. rewrite (Qabs_pos u) by qlra. reflexivity. }
  rewrite Hd.
  assert (Qabs (z - t) * u <= (1 # 2) * u).
  { apply Qmult_le_compat_r; [exact Hr | qlra]. }
  qlra.
Qed.

(** The relative error of one rounding is at most the unit roundoff. *)
Lemma round64_error (q : Q) : Qabs (round64 q - q) <= Qabs q * eps64.
Proof.
  unfold round64. destruct q as [n d]. cbn [Qnum]. destruct n as [|p|p].
  - vm_compute. discriminate.
  - assert (H : 0 < Z.pos p # d) by reflexivity.
    rewrite (Qabs_pos (Z.pos p # d)) by (apply Qlt_le_weak; exact H).
    apply roundPos_error. exact H.
  - assert (H : 0 < - (Z.neg p # d)) by reflexivity.
    pose proof (roundPos_error _ H) as Hr.
    assert (Hn : Z.neg p # d <= 0) by (unfold Qle; cbn; lia).
    rewrite (Qabs_neg (Z.neg p # d)) by exact Hn.
    setoid_replace (- roundPos (- (Z.neg p # d)) - (Z.neg p # d))
      with (- (roundPos (- (Z.neg p # d)) - - (Z.neg p # d))) by ring.
    rewrite Qabs_opp. exact Hr.
Qed.

(** The significand of a rounded positive number has 53 bits (or is the
    power [2^53] that starts the next binade). *)
Lemma roundPos_significand (a : Q) :
  0 < a ->
  (2 ^ 52 <= roundHalfEven (a / 2 ^ (ilog2 a - 52)) <= 2 ^ 53)%Z.
Proof.
  intros Ha.
  pose proof (ilog2_le a Ha) as Hlo. pose proof (ilog2_lt a Ha) as Hhi.
  set (e := ilog2 a) in *.
  assert (Hu : 2 ^ e == 4503599627370496 * 2 ^ (e - 52)).
  { replace (e - 52)%Z with (e + - 52)%Z by lia.
    rewrite Qpower_plus by discriminate.
    change (2 ^ (-52)) with (1 # 4503599627370496). field. }
  assert (Hu1 : 2 ^ (e + 1) == 9007199254740992 * 2 ^ (e - 52)).
  { rewrite Qpower_plus by discriminate. rewrite Hu.
    change (2 ^ 1) with 2. ring. }
  pose proof (pow2_pos (e - 52)) as Hpos.
  set (u := 2 ^ (e - 52)) in *.
  assert (Ht : a == (a / u) * u).
  { field. intros H0. rewrite H0 in Hpos. discriminate. }
  set (t := a / u) in *.
  assert (Ht1 : 4503599627370496 <= t).
  { apply (Qmult_le_r _ _ u Hpos). rewrite <- Ht, <- Hu. exact Hlo. }
  assert (Ht2 : t < 9007199254740992).
  { apply (Qmult_lt_r _ _ u Hpos). rewrite <- Ht, <- Hu1. exact Hhi. }
  assert (Hf1 : (4503599627370496 <= Qfloor t)%Z).
  { change 4503599627370496%Z with (Qfloor (inject_Z 4503599627370496)).
    apply Qfloor_resp_le. exact Ht1. }
  assert (Hf2 : (Qfloor t < 9007199254740992)%Z).
  { pose proof (Qfloor_le t) as Hfl.
    rewrite Zlt_Qlt. eapply Qle_lt_trans; [exact Hfl | exact Ht2]. }
  change (2 ^ 52)%Z with 4503599627370496%Z.
  change (2 ^ 53)%Z with 9007199254740992%Z.
  unfold roundHalfEven.
  destruct (Qcompare _ _); [destruct (Z.even _)| |]; lia.
Qed.

(** Some doubles: 0.1, 0.1 + 0.2 = 0.30000000000000004, a tie that goes to
    the even significand, and numbers that are doubles already. *)
Lemma round64_samples :
  round64 (1 # 10) == 3602879701896397 # 36028797018963968 /\
  round64 (round64 (1 # 10) + round64 (2 # 10))
    == 1351079888211149 # 4503599627370496 /\
  round64 (- 35 - (1 # 281474976710656)) == - 35 /\
  round64 (- 35 - (3 # 281474976710656)) == - 35 - (4 # 281474976710656) /\
  round64 0 == 0 /\ round64 48 == 48 /\ round64 (- (5 # 2)) == - (5 # 2) /\
  round64 (23 - (1 # 281474976710656)) == 23 - (1 # 281474976710656).
Proof. repeat split; vm_compute; reflexivity. Qed.

(** A rounded non-negative number of at most 48 stays within [eps64 * 48]
    of the exact one. *)
Lemma round64_near (q : Q) :
  0 <= q -> q <= 48 ->
  q - 48 * eps64 <= round64 q /\ round64 q <= q + 48 * eps64.
Proof.
  intros H0 H1. pose proof (round64_error q) as He.
  rewrite (Qabs_pos q) in He by exact H0.
  assert (Hq : q * eps64 <= 48 * eps64).
  { apply Qmult_le_compat_r; [exact H1 | discriminate]. }
  revert He. apply Qabs_case; intros; split; qlra.
Qed.

(** ** The four exits of [F64.handleDrop] *)

(** The centre that [handleDrop] measures the offset from. *)
Lemma f64_previous_x (cfg : LevelConfig.t) (st : State) :
  fst (F64.previousBlock cfg st) =
  match blocks st with
  | [] => 50
  | b0 :: bs => Block.x (last bs b0)
  end.
Proof. unfold F64.previousBlock. now destruct (blocks st). Qed.

Section DropF64.
Variables (cfg : LevelConfig.t) (now : Z) (st : State).
Hypothesis Hplaying : gameState st = PLAYING.
Hypothesis Hguard : isDroppingRef st = false.

Lemma f64_total_miss :
  currentBlockWidth st < F64.absDiff cfg st ->
  F64.handleDrop cfg now st st = (endGame false st, []).
Proof.
  intro H. unfold F64.handleDrop. rewrite Hplaying, Hguard.
  cbn [GameState_eqb negb orb]. cbv zeta. unfold Qgt_bool.
  now rewrite (proj2 (Qlt_bool_iff _ _) H).
Qed.

Lemma f64_perfect :
  F64.absDiff cfg st <= currentBlockWidth st ->
  F64.absDiff cfg st <= PERFECT_TOLERANCE ->
  F64.handleDrop cfg now st st =
  addNewBlock cfg now st
    (setFeedback (Some perfect)
       (setScore (score st + 20 + combo st * 5)%Z
          (setCombo (combo st + 1)%Z st)))
    true (currentBlockWidth st) (fst (F64.previousBlock cfg st)).
Proof.
  intros H1 H2. unfold F64.handleDrop. rewrite Hplaying, Hguard.
  cbn [GameState_eqb negb orb]. cbv zeta. unfold Qgt_bool.
  rewrite (proj2 (Qlt_bool_false_iff _ _) H1).
  now rewrite (proj2 (Qle_bool_iff _ _) H2).
Qed.

Lemma f64_trim_miss :
  F64.absDiff cfg st <= currentBlockWidth st ->
  PERFECT_TOLERANCE < F64.absDiff cfg st ->
  round64 (currentBlockWidth st - F64.absDiff cfg st) < 5 ->
  F64.handleDrop cfg now st st = (endGame false (setCombo 0 st), []).
Proof.
  intros H1 H2 H3. unfold F64.handleDrop. rewrite Hplaying, Hguard.
  cbn [GameState_eqb negb orb]. cbv zeta. unfold Qgt_bool.
  rewrite (proj2 (Qlt_bool_false_iff _ _) H1).
  rewrite (proj2 (Qle_bool_false_iff _ _) H2).
  now rewrite (proj2 (Qlt_bool_iff _ _) H3).
Qed.

Lemma f64_good :
  F64.absDiff cfg st <= currentBlockWidth st ->
  PERFECT_TOLERANCE < F64.absDiff cfg st ->
  5 <= round64 (currentBlockWidth st - F64.absDiff cfg st) ->
  F64.handleDrop cfg now st st =
  addNewBlock cfg now st
    (setFeedback (Some good) (setScore (score st + 10)%Z (setCombo 0 st)))
    false (round64 (currentBlockWidth st - F64.absDiff cfg st)) (hookX st).
Proof.
  intros H1 H2 H3. unfold F64.handleDrop. rewrite Hplaying, Hguard.
  cbn [GameState_eqb negb orb]. cbv zeta. unfold Qgt_bool.
  rewrite (proj2 (Qlt_bool_false_iff _ _) H1).
  rewrite (proj2 (Qle_bool_false_iff _ _) H2).
  now rewrite (proj2 (Qlt_bool_false_iff _ _) H3).
Qed.

Lemma f64_exits :
  currentBlockWidth st < F64.absDiff cfg st \/
  (F64.absDiff cfg st <= currentBlockWidth st /\
   F64.absDiff cfg st <= PERFECT_TOLERANCE) \/
  (F64.absDiff cfg st <= currentBlockWidth st /\
   PERFECT_TOLERANCE < F64.absDiff cfg st /\
   round64 (currentBlockWidth st - F64.absDiff cfg st) < 5) \/
  (F64.absDiff cfg st <= currentBlockWidth st /\
   PERFECT_TOLERANCE < F64.absDiff cfg st /\
   5 <= round64 (currentBlockWidth st - F64.absDiff cfg st)).
Proof.
  destruct (Qlt_le_dec (currentBlockWidth st) (F64.absDiff cfg st)) as [H|H];
    [now left | right].
  destruct (Qlt_le_dec PERFECT_TOLERANCE (F64.absDiff cfg st)) as [H2|H2];
    [right | now left].
  destruct (Qlt_le_dec (round64 (currentBlockWidth st - F64.absDiff cfg st)) 5)
    as [H3|H3]; [left | right]; auto.
Qed.
End DropF64.

Lemma f64_absDiff_nonneg (cfg : LevelConfig.t) (st : State) :
  0 <= F64.absDiff cfg st.
Proof. unfold F64.absDiff. apply Qabs_nonneg. Qed.

(** ** Every event keeps [F64.Inv] *)

Lemma f64_Inv_ext (w : World) (st' : State) (tm : list Callback) :
  F64.Inv w ->
  currentLevelIdx st' = currentLevelIdx (state w) ->
  isDroppingRef st' = isDroppingRef (state w) ->
  blocks st' = blocks (state w) ->
  currentBlockWidth st' = currentBlockWidth (state w) ->
  (gameState (state w) = MENU -> gameState st' = MENU) ->
  Forall F64.callbackOk tm ->
  F64.Inv (mkWorld st' tm).
Proof.
  intros [I1 I2 I3 I4 I5 I6] Hi Hd Hb Hw Hg Ht.
  constructor; cbn [state timers]; rewrite ?Hi, ?Hd, ?Hb, ?Hw; auto.
  destruct I4 as [Hm|Hr]; [left; auto | now right].
Qed.

Lemma f64_Inv_fresh (st : State) (tm : list Callback) :
  (currentLevelIdx st < length LEVELS)%nat ->
  isDroppingRef st = false -> blocks st = [] ->
  20 <= currentBlockWidth st -> currentBlockWidth st <= 48 ->
  Forall F64.callbackOk tm ->
  F64.Inv (mkWorld st tm).
Proof.
  intros Hi Hd Hb H1 H2 Ht.
  constructor; cbn [state timers]; rewrite ?Hb; auto.
  - right. split; [qlra | exact H2].
  - exact I.
  - intros i a b H. destruct i; discriminate.
Qed.

Lemma LEVELS_width_range (i : nat) (cfg : LevelConfig.t) :
  nth_error LEVELS i = Some cfg ->
  20 <= LevelConfig.initialWidth cfg /\ LevelConfig.initialWidth cfg <= 48.
Proof.
  intro H. destruct (LEVELS_nth i cfg H) as [Hi ->].
  unfold MAX_LEVELS in Hi. unfold level_of_index.
  cbn [LevelConfig.initialWidth].
  unfold Qle, inject_Z; cbn [Qnum Qden]. lia.
Qed.

(** A pushed block keeps the invariant. *)
Lemma f64_Inv_push (w : World) (cfg : LevelConfig.t) (now : Z) (s2 : State)
    (p : bool) (nw px : Q) :
  F64.Inv w ->
  currentLevelIdx s2 = currentLevelIdx (state w) ->
  isDroppingRef s2 = isDroppingRef (state w) ->
  5 <= Block.width (newBlock cfg now (state w) p nw px) ->
  Block.width (newBlock cfg now (state w) p nw px) <= 48 ->
  match blocks (state w) with
  | [] => True
  | b0 :: bs => F64.stacked (last bs b0) (newBlock cfg now (state w) p nw px)
  end ->
  F64.Inv (mkWorld (fst (addNewBlock cfg now (state w) s2 p nw px))
                   (timers w ++ snd (addNewBlock cfg now (state w) s2 p nw px))).
Proof.
  intros [I1 I2 I3 I4 I5 I6] Hi Hd Hmin Hmax Hadj.
  destruct (addNewBlock_fields cfg now (state w) s2 p nw px)
    as (Fb & Fw & _ & _ & _ & _ & Fi & _ & Fd & _ & Ft).
  set (nb := newBlock cfg now (state w) p nw px) in *.
  constructor; cbn [state timers]; rewrite ?Fb, ?Fw, ?Fi, ?Fd, ?Ft.
  - now rewrite Hi.
  - now rewrite Hd.
  - apply Forall_app. split; [exact I3|].
    constructor; [exact I|constructor].
  - right. split; assumption.
  - now rewrite topWidth_snoc.
  - intros i a b Ha Hb.
    destruct (Nat.lt_ge_cases (S i) (length (blocks (state w)))) as [Hl|Hl].
    + rewrite nth_error_app1 in Ha, Hb by lia. eapply I6; eassumption.
    + rewrite nth_error_app2 in Hb by lia.
      destruct (S i - length (blocks (state w)))%nat as [|[|k]] eqn:E;
        simpl in Hb; try discriminate.
      injection Hb as <-.
      assert (Hlen : length (blocks (state w)) = S i) by lia.
      rewrite nth_error_app1 in Ha by lia.
      destruct (blocks (state w)) as [|b0 bs] eqn:Eb; [discriminate|].
      cbn [length] in Hlen. injection Hlen as Hlen. subst i.
      rewrite nth_error_top in Ha. injection Ha as <-. exact Hadj.
Qed.

Lemma f64_handleDrop_Inv (w : World) (cfg : LevelConfig.t) (now : Z) :
  F64.Inv w -> currentLevelConfig (state w) = Some cfg ->
  F64.Inv (mkWorld (fst (F64.handleDrop cfg now (state w) (state w)))
             (timers w ++ snd (F64.handleDrop cfg now (state w) (state w)))).
Proof.
  intros HI Hcfg.
  destruct (GameState_eqb (gameState (state w)) PLAYING) eqn:Eg.
  2:{ unfold F64.handleDrop. rewrite Eg. cbn [negb orb fst snd].
      rewrite app_nil_r. destruct w; exact HI. }
  apply GameState_eqb_eq in Eg.
  pose proof (F64.fi_guard w HI) as Hg.
  pose proof (f64_absDiff_nonneg cfg (state w)) as Hd.
  pose proof tolerance_value as Htol.
  assert (Hpw : 5 <= currentBlockWidth (state w) /\
                currentBlockWidth (state w) <= 48).
  { destruct (F64.fi_width w HI) as [Hm|Hr]; [congruence | exact Hr]. }
  destruct (f64_exits cfg (state w)) as [H|[[H1 H2]|[(H1&H2&H3)|(H1&H2&H3)]]].
  - rewrite (f64_total_miss cfg now _ Eg Hg H). cbn [fst snd].
    rewrite app_nil_r.
    apply (f64_Inv_ext w); auto; [cbn; congruence | apply (F64.fi_timers w HI)].
  - rewrite (f64_perfect cfg now _ Eg Hg H1 H2).
    apply f64_Inv_push; auto; cbn [newBlock Block.width]; try tauto.
    destruct (blocks (state w)) as [|b0 bs] eqn:Eb; [exact I|].
    left. cbn [newBlock Block.isPerfect Block.x Block.width].
    split; [reflexivity|]. rewrite f64_previous_x, Eb. split; [reflexivity|].
    pose proof (F64.fi_top w HI) as Ht. rewrite Eb in Ht. exact Ht.
  - rewrite (f64_trim_miss cfg now _ Eg Hg H1 H2 H3). cbn [fst snd].
    rewrite app_nil_r.
    apply (f64_Inv_ext w); auto; [cbn; congruence | apply (F64.fi_timers w HI)].
  - rewrite (f64_good cfg now _ Eg Hg H1 H2 H3).
    assert (Hn : round64 (currentBlockWidth (state w) - F64.absDiff cfg (state w))
                 <= 48).
    { destruct (round64_near
                  (currentBlockWidth (state w) - F64.absDiff cfg (state w)))
        as [_ Hu]; [qlra | qlra |].
      unfold eps64 in Hu. qlra. }
    apply f64_Inv_push; auto; cbn [newBlock Block.width]; try tauto.
    destruct (blocks (state w)) as [|b0 bs] eqn:Eb; [exact I|].
    right. cbn [newBlock Block.isPerfect Block.x Block.width].
    split; [reflexivity|].
    pose proof (F64.fi_top w HI) as Ht. rewrite Eb in Ht. cbn [topWidth] in Ht.
    unfold F64.absDiff in *. rewrite f64_previous_x, Eb in *.
    rewrite Ht in *. cbv zeta in *.
    split; [qlra|]. split; [assumption | reflexivity].
Qed.

Lemma f64_callbacks_removeNth (n : nat) (tm : list Callback) :
  Forall F64.callbackOk tm -> Forall F64.callbackOk (removeNth n tm).
Proof.
  intro H. apply Forall_forall. intros c Hc. apply removeNth_incl in Hc.
  exact (proj1 (Forall_forall _ _) H c Hc).
Qed.

Lemma f64_animate_fields (cfg : LevelConfig.t) (time sinv : Q) (st : State) :
  let res := F64.animate cfg time sinv st st in
  gameState res = gameState st /\ currentLevelIdx res = currentLevelIdx st /\
  blocks res = blocks st /\ currentBlockWidth res = currentBlockWidth st /\
  score res = score st /\ combo res = combo st /\
  isDroppingRef res = isDroppingRef st /\
  hookX res = (if GameState_eqb (gameState st) PLAYING
               then round64 (50 + round64 (sinv * 45)) else hookX st).
Proof.
  unfold F64.animate, F64.updateHookPosition.
  destruct (startTime_unset st), (GameState_eqb (gameState st) PLAYING);
    simpl; auto 10.
Qed.

Lemma f64_step_Inv (ev : Event) (w w' : World) :
  F64.Inv w -> F64.step ev w = Some w' -> F64.Inv w'.
Proof.
  intros HI Hstep. unfold F64.step in Hstep.
  destruct (currentLevelConfig (state w)) as [cfg|] eqn:Hcfg; [|discriminate].
  destruct (currentLevelConfig_bound _ _ Hcfg) as [Hidx _].
  destruct (LEVELS_width_range _ _ Hcfg) as [Hw1 Hw2].
  pose proof (F64.fi_guard w HI) as Hg. pose proof (F64.fi_timers w HI) as Ht.
  destruct ev as [ | | | |now|time sinv|n].
  - destruct (GameState_eqb _ MENU); [|discriminate].
    injection Hstep as <-. apply f64_Inv_fresh; auto.
  - destruct (GameState_eqb _ LEVEL_COMPLETE) eqn:Eg; [|discriminate].
    apply GameState_eqb_eq in Eg. unfold nextLevel in Hstep.
    destruct (currentLevelIdx (state w) <? length LEVELS - 1)%nat eqn:El;
      injection Hstep as <-.
    + apply Nat.ltb_lt in El. rewrite LEVELS_length in El.
      destruct HI as [I1 I2 I3 I4 I5 I6].
      constructor; cbn [state timers currentLevelIdx setCurrentLevelIdx
                        isDroppingRef gameState currentBlockWidth blocks];
        auto.
      * rewrite LEVELS_length. lia.
      * apply Forall_app. split; [assumption|].
        constructor; [unfold F64.callbackOk; rewrite LEVELS_length; lia|constructor].
    + destruct HI as [I1 I2 I3 I4 I5 I6].
      constructor; cbn [state timers currentLevelIdx setCurrentLevelIdx
                        isDroppingRef gameState currentBlockWidth blocks];
        auto.
      * rewrite LEVELS_length. lia.
      * apply Forall_app. split; [assumption|].
        constructor; [cbn; split; assumption|constructor].
  - destruct (_ || _); [|discriminate].
    injection Hstep as <-. apply f64_Inv_fresh; auto.
  - destruct (GameState_eqb _ GAME_OVER) eqn:Eg; [|discriminate].
    injection Hstep as <-. apply (f64_Inv_ext w); auto.
  - pose proof (f64_handleDrop_Inv w cfg now HI Hcfg) as H.
    destruct (F64.handleDrop cfg now (state w) (state w)) as [st' cbs].
    injection Hstep as <-. exact H.
  - destruct (Qle_bool (-1) sinv && Qle_bool sinv 1); [|discriminate].
    injection Hstep as <-.
    destruct (f64_animate_fields cfg time sinv (state w))
      as (Fg & Fi & Fb & Fw & _ & _ & Fd & _).
    apply (f64_Inv_ext w); auto. intro Hm. now rewrite Fg.
  - destruct (nth_error (timers w) n) as [cb|] eqn:En; [|discriminate].
    injection Hstep as <-.
    assert (Hcb : F64.callbackOk cb).
    { apply nth_error_In in En.
      exact (proj1 (Forall_forall _ _) Ht cb En). }
    pose proof (f64_callbacks_removeNth n _ Ht) as Htm.
    destruct cb as [i|c| ]; cbn [runCallback F64.callbackOk] in *.
    + unfold nextLevelReset.
      destruct (nth_error LEVELS (i + 1)) as [next|] eqn:E.
      * destruct (LEVELS_width_range _ _ E) as [Hn1 Hn2].
        apply f64_Inv_fresh; auto.
      * apply nth_error_None in E. lia.
    + destruct Hcb as [Hc1 Hc2]. apply f64_Inv_fresh; auto.
    + apply (f64_Inv_ext w); auto.
Qed.

Lemma f64_initialWorld_Inv : F64.Inv initialWorld.
Proof.
  constructor; cbn; auto.
  - lia.
  - intros i a b H. destruct i; discriminate.
Qed.

Lemma f64_run_Inv (evs : list Event) (w w' : World) :
  F64.Inv w -> F64.run evs w = Some w' -> F64.Inv w'.
Proof.
  revert w. induction evs as [|ev evs IH]; intros w HI Hrun; simpl in Hrun.
  - now injection Hrun as <-.
  - destruct (F64.step ev w) as [w1|] eqn:E; [|discriminate].
    eapply IH; [eapply f64_step_Inv; eassumption | exact Hrun].
Qed.

Lemma f64_reachable_Inv (w : World) : F64.reachable w -> F64.Inv w.
Proof. intros [evs H]. exact (f64_run_Inv evs _ _ f64_initialWorld_Inv H). Qed.

Lemma f64_step_drop (w : World) (cfg : LevelConfig.t) (now : Z) :
  currentLevelConfig (state w) = Some cfg ->
  F64.step (EvDrop now) w =
  Some (mkWorld (fst (F64.handleDrop cfg now (state w) (state w)))
          (timers w ++ snd (F64.handleDrop cfg now (state w) (state w)))).
Proof.
  intro H. unfold F64.step. rewrite H.
  now destruct (F64.handleDrop cfg now (state w) (state w)).
Qed.

(** ** Drops from a reachable state, in binary64 *)

(** The four exits of [F64.handleDrop] at a reachable Playing state.  The
    centre below and the offset are written out from the state. *)
Lemma f64_drop_outcome (w : World) (now : Z) :
  F64.reachable w -> gameState (state w) = PLAYING ->
  exists cfg w',
    currentLevelConfig (state w) = Some cfg /\
    F64.step (EvDrop now) w = Some w' /\
    let st := state w in
    let st' := state w' in
    let below := match blocks st with
                 | [] => 50
                 | b0 :: bs => Block.x (last bs b0)
                 end in
    let d := Qabs (round64 (hookX st - below)) in
    let pw := currentBlockWidth st in
    5 <= pw /\ pw <= 48 /\
    ((pw < d /\ st' = endGame false st) \/
     (d <= pw /\ d <= 3 /\
      exists b, placed cfg st st' b perfect /\
        Block.isPerfect b = Some true /\
        Block.width b = pw /\ Block.x b = below /\
        score st' = (score st + 20 + combo st * 5)%Z /\
        combo st' = (combo st + 1)%Z) \/
     (d <= pw /\ 3 < d /\ round64 (pw - d) < 5 /\
      st' = endGame false (setCombo 0 st)) \/
     (d <= pw /\ 3 < d /\ 5 <= round64 (pw - d) /\
      exists b, placed cfg st st' b good /\
        Block.isPerfect b = Some false /\
        Block.width b = round64 (pw - d) /\ Block.x b = hookX st /\
        score st' = (score st + 10)%Z /\ combo st' = 0%Z)).
Proof.
  intros Hr Hp. pose proof (f64_reachable_Inv w Hr) as HI.
  destruct (currentLevelConfig_defined _ (F64.fi_level w HI))
    as (cfg & Hcfg & _).
  pose proof (F64.fi_guard w HI) as Hg.
  exists cfg. eexists. split; [exact Hcfg|].
  split; [apply (f64_step_drop w cfg now Hcfg)|].
  cbn [state]. cbv zeta.
  assert (Hpw : 5 <= currentBlockWidth (state w) /\
                currentBlockWidth (state w) <= 48).
  { destruct (F64.fi_width w HI) as [Hm|Hw]; [congruence | exact Hw]. }
  split; [apply Hpw|]. split; [apply Hpw|].
  pose proof tolerance_value as Htol.
  assert (Ed : F64.absDiff cfg (state w) =
               Qabs (round64 (hookX (state w) -
                 match blocks (state w) with
                 | [] => 50
                 | b0 :: bs => Block.x (last bs b0)
                 end))).
  { unfold F64.absDiff. now rewrite f64_previous_x. }
  destruct (f64_exits cfg (state w))
    as [H|[[H1 H2]|[(H1&H2&H3)|(H1&H2&H3)]]].
  - left. rewrite <- Ed. split; [assumption|].
    now rewrite (f64_total_miss cfg now _ Hp Hg H).
  - right; left. rewrite <- Ed. split; [assumption|]. split; [qlra|].
    rewrite (f64_perfect cfg now _ Hp Hg H1 H2).
    match goal with |- context [addNewBlock cfg now ?r ?s ?p ?a ?c] =>
      destruct (addNewBlock_fields cfg now r s p a c)
        as (Fb & Fw & Fgs & Fs & Fc & Ff & _);
      exists (newBlock cfg now r p a c)
    end.
    unfold placed. rewrite Fb, Fw, Fs, Fc, Ff, Fgs.
    cbn [score combo feedback gameState setFeedback setScore setCombo
         newBlock Block.width Block.x Block.isPerfect].
    rewrite Hp, f64_previous_x. repeat split; reflexivity.
  - right; right; left. rewrite <- Ed.
    split; [assumption|]. split; [qlra|]. split; [assumption|].
    now rewrite (f64_trim_miss cfg now _ Hp Hg H1 H2 H3).
  - right; right; right. rewrite <- Ed.
    split; [assumption|]. split; [qlra|]. split; [assumption|].
    rewrite (f64_good cfg now _ Hp Hg H1 H2 H3).
    match goal with |- context [addNewBlock cfg now ?r ?s ?p ?a ?c] =>
      destruct (addNewBlock_fields cfg now r s p a c)
        as (Fb & Fw & Fgs & Fs & Fc & Ff & _);
      exists (newBlock cfg now r p a c)
    end.
    unfold placed. rewrite Fb, Fw, Fs, Fc, Ff, Fgs.
    cbn [score combo feedback gameState setFeedback setScore setCombo
         newBlock Block.width Block.x Block.isPerfect].
    rewrite Hp. repeat split; reflexivity.
Qed.

Lemma f64_worldNearTop_reachable : F64.reachable F64.worldNearTop.
Proof.
  exists (F64.twoTrimmed ++ [EvFrame 48 (7 # 45)]). vm_compute. reflexivity.
Qed.

Lemma f64_worldOffTop_reachable : F64.reachable F64.worldOffTop.
Proof.
  exists (F64.twoTrimmed ++ [EvFrame 48 (1 # 3)]). vm_compute. reflexivity.
Qed.

Lemma f64_worldFarOff_reachable : F64.reachable F64.worldFarOff.
Proof.
  exists (F64.twoTrimmed ++ [EvFrame 48 (7 # 9)]). vm_compute. reflexivity.
Qed.

(** C1.  A drop made while Playing whose offset from the centre of the block
    below (the top of the stack, or 50 for the base platform under an empty
    stack) is at most 3 is a Perfect: the stack gains one block, flagged
    perfect, whose width is the pending width and whose centre is the centre
    of the block below (not the hook position); the pending width is
    unchanged, the score grows by [20 + 5 * combo] for the combo before the
    drop, and the combo grows by one.  The first drop of level 1 with the
    hook at the centre gives score 20, combo 1 and a block centred at 50;
    its width is 48 when level 1 was entered from the menu, but 30 when
    level 1 was entered by the wrap from the last level. *)
Theorem C1_perfect_drop :
  (forall (w : World) (now : Z),
     F64.reachable w -> gameState (state w) = PLAYING ->
     let below := match blocks (state w) with
                  | [] => 50
                  | b0 :: bs => Block.x (last bs b0)
                  end in
     Qabs (round64 (hookX (state w) - below)) <= 3 ->
     exists w' b,
       F64.step (EvDrop now) w = Some w' /\
       blocks (state w') = blocks (state w) ++ [b] /\
       Block.isPerfect b = Some true /\
       feedback (state w') = Some perfect /\
       Block.width b = currentBlockWidth (state w) /\
       Block.x b = below /\
       currentBlockWidth (state w') = currentBlockWidth (state w) /\
       score (state w') = (score (state w) + (20 + 5 * combo (state w)))%Z /\
       combo (state w') = (combo (state w) + 1)%Z) /\
  (forall now : Z,
     exists w1 w' b,
       F64.run [EvPlay] initialWorld = Some w1 /\
       gameState (state w1) = PLAYING /\
       currentLevelIdx (state w1) = 0%nat /\
       blocks (state w1) = [] /\ hookX (state w1) = 50 /\
       Qabs (round64 (hookX (state w1) - 50)) == 0 /\
       F64.step (EvDrop now) w1 = Some w' /\
       blocks (state w') = [b] /\
       Block.isPerfect b = Some true /\
       Block.width b = 48 /\ Block.x b = 50 /\
       score (state w') = 20%Z /\ combo (state w') = 1%Z) /\
  (forall now : Z,
     exists w1 w' b,
       F64.run (toLastLevelComplete ++ [EvNext; EvTimer 0]) initialWorld
         = Some w1 /\
       gameState (state w1) = PLAYING /\
       currentLevelIdx (state w1) = 0%nat /\
       blocks (state w1) = [] /\ hookX (state w1) = 50 /\
       Qabs (round64 (hookX (state w1) - 50)) == 0 /\
       F64.step (EvDrop now) w1 = Some w' /\
       blocks (state w') = [b] /\
       Block.isPerfect b = Some true /\
       Block.width b = 30 /\ Block.x b = 50 /\
       score (state w') = 20%Z /\ combo (state w') = 1%Z).
Proof.
  split; [|split].
  - intros w now Hr Hp below Hd.
    destruct (f64_drop_outcome w now Hr Hp)
      as (cfg & w' & Hcfg & Hstep & Hmin & Hmax & Hcases).
    cbv zeta in Hcases. fold below in Hcases.
    destruct Hcases
      as [[H _]|[(_&_&b&Hpl&Hb1&Hb2&Hb3&Hs&Hc)|[(_&H&_)|(_&H&_)]]];
      try (exfalso; qlra).
    destruct Hpl as (Pb & Pw & Pf & _).
    exists w', b. repeat split; try assumption.
    + now rewrite Pw.
    + rewrite Hs. lia.
  - intro now. eexists. eexists. eexists.
    split; [vm_compute; reflexivity|].
    split; [reflexivity|]. split; [reflexivity|]. split; [reflexivity|].
    split; [reflexivity|]. split; [reflexivity|].
    split; [vm_compute; reflexivity|].
    repeat split.
  - intro now. eexists. eexists. eexists.
    split; [vm_compute; reflexivity|].
    split; [reflexivity|]. split; [reflexivity|]. split; [reflexivity|].
    split; [reflexivity|]. split; [reflexivity|].
    split; [vm_compute; reflexivity|].
    repeat split.
Qed.

(** C1 on a stack of two trimmed blocks (38 wide at 60, 33 wide at 55) with
    the hook at 57: the block snaps to 55, the centre of the top block. *)
Lemma C1_perfect_drop_witness :
  exists w' b,
    F64.step (EvDrop 7) F64.worldNearTop = Some w' /\
    hookX (state F64.worldNearTop) == 57 /\
    blocks (state w') = blocks (state F64.worldNearTop) ++ [b] /\
    Block.isPerfect b = Some true /\
    Block.x b == 55 /\ Block.width b == 33 /\
    currentBlockWidth (state w') == 33 /\
    score (state w') = 40%Z /\ combo (state w') = 1%Z.
Proof.
  assert (Hd : Qabs (round64 (hookX (state F64.worldNearTop)
                 - match blocks (state F64.worldNearTop) with
                   | [] => 50
                   | b0 :: bs => Block.x (last bs b0)
                   end)) <= 3)
    by (vm_compute; discriminate).
  destruct (proj1 C1_perfect_drop F64.worldNearTop 7%Z
              f64_worldNearTop_reachable eq_refl Hd)
    as (w' & b & Hs & Hb & Hp & _ & Hw & Hx & Hcw & Hsc & Hco).
  exists w', b.
  split; [exact Hs|]. split; [vm_compute; reflexivity|].
  split; [exact Hb|]. split; [exact Hp|].
  split; [rewrite Hx; vm_compute; reflexivity|].
  split; [rewrite Hw; vm_compute; reflexivity|].
  split; [rewrite Hcw; vm_compute; reflexivity|].
  split; [rewrite Hsc; reflexivity | rewrite Hco; reflexivity].
Defined.

(** C2.  A drop made while Playing is a Miss (the game goes to GameOver)
    exactly when the offset from the centre of the block below exceeds the
    pending width, or exceeds the tolerance of 3 while the trimmed width
    [pendingWidth - absDiff] is below 5; on a Miss the stack is unchanged
    and the state is GameOver, and otherwise one block is appended.  The
    offset and the trimmed width are the doubles that the program computes:
    on a block of width 40 at 58 with the hook at the double just below 23
    the offset rounds to 35, the trimmed width is 5 and the block is
    placed. *)
Theorem C2_miss :
  (forall (w : World) (now : Z),
     F64.reachable w -> gameState (state w) = PLAYING ->
     exists w',
       F64.step (EvDrop now) w = Some w' /\
       let below := match blocks (state w) with
                    | [] => 50
                    | b0 :: bs => Block.x (last bs b0)
                    end in
       let d := Qabs (round64 (hookX (state w) - below)) in
       let pw := currentBlockWidth (state w) in
       let miss := pw < d \/ (3 < d /\ round64 (pw - d) < 5) in
       (gameState (state w') = GAME_OVER <-> miss) /\
       (miss -> blocks (state w') = blocks (state w) /\
                gameState (state w') = GAME_OVER) /\
       (~ miss -> exists b, blocks (state w') = blocks (state w) ++ [b])) /\
  (forall now : Z,
     exists a w' b,
       F64.reachable F64.worldBoundary /\
       gameState (state F64.worldBoundary) = PLAYING /\
       blocks (state F64.worldBoundary) = [a] /\
       Block.x a == 58 /\
       currentBlockWidth (state F64.worldBoundary) == 40 /\
       hookX (state F64.worldBoundary) == 23 - (1 # 281474976710656) /\
       F64.step (EvDrop now) F64.worldBoundary = Some w' /\
       gameState (state w') = PLAYING /\
       blocks (state w') = [a; b] /\
       Block.isPerfect b = Some false /\
       Block.width b == 5 /\
       Block.x b == 23 - (1 # 281474976710656)).
Proof.
  split.
  - intros w now Hr Hp.
    destruct (f64_drop_outcome w now Hr Hp)
      as (cfg & w' & Hcfg & Hstep & Hmin & Hmax & Hcases).
    exists w'. split; [exact Hstep|]. cbv zeta in *.
    destruct Hcases
      as [[H E]|[(H1&H2&b&Hpl&_)|[(H1&H2&H3&E)|(H1&H2&H3&b&Hpl&_)]]].
    + rewrite E. cbn [gameState blocks endGame setGameState].
      repeat split; auto. intro Hn. exfalso. auto.
    + pose proof (placed_not_over _ _ _ _ _ Hpl) as Hno.
      match goal with |- (_ <-> ?m) /\ _ => assert (Hnm : ~ m) end.
      { intros [Hm|[Hm _]]; qlra. }
      split; [split; intro; contradiction|].
      split; [intro; contradiction|].
      intros _. exists b. apply Hpl.
    + rewrite E. cbn [gameState blocks endGame setGameState setCombo].
      repeat split; auto. intro Hn. exfalso. auto.
    + pose proof (placed_not_over _ _ _ _ _ Hpl) as Hno.
      match goal with |- (_ <-> ?m) /\ _ => assert (Hnm : ~ m) end.
      { intros [Hm|[_ Hm]]; qlra. }
      split; [split; intro; contradiction|].
      split; [intro; contradiction|].
      intros _. exists b. apply Hpl.
  - intro now. eexists. eexists. eexists.
    split.
    { exists [EvPlay; EvFrame 16 (8 # 45); EvDrop 1;
              EvFrame 32 (- (27 + (1 # 281474976710656)) / 45)].
      vm_compute. reflexivity. }
    split; [reflexivity|].
    split; [vm_compute; reflexivity|].
    split; [vm_compute; reflexivity|].
    split; [vm_compute; reflexivity|].
    split; [vm_compute; reflexivity|].
    split; [vm_compute; reflexivity|].
    split; [reflexivity|]. split; [reflexivity|]. split; [reflexivity|].
    split; vm_compute; reflexivity.
Qed.

(** C2 on a stack of two trimmed blocks (38 wide at 60, 33 wide at 55) with
    the hook at 85: the offset from the top block is 30, the trimmed width
    would be 3, and the drop is a Miss. *)
Lemma C2_miss_witness :
  exists w',
    F64.step (EvDrop 7) F64.worldFarOff = Some w' /\
    hookX (state F64.worldFarOff) == 85 /\
    currentBlockWidth (state F64.worldFarOff) == 33 /\
    gameState (state w') = GAME_OVER /\
    blocks (state w') = blocks (state F64.worldFarOff) /\
    length (blocks (state w')) = 2%nat.
Proof.
  destruct (proj1 C2_miss F64.worldFarOff 7%Z
              f64_worldFarOff_reachable eq_refl)
    as (w' & Hs & _ & Hmiss & _).
  cbv zeta in Hmiss.
  destruct Hmiss as [Hb Hg].
  { right. split; vm_compute; reflexivity. }
  exists w'. split; [exact Hs|].
  split; [vm_compute; reflexivity|]. split; [vm_compute; reflexivity|].
  split; [exact Hg|]. split; [exact Hb|]. rewrite Hb. reflexivity.
Defined.

(** C3.  A drop made while Playing whose offset from the centre of the
    block below is more than 3 and at most the pending width, and whose
    trimmed width [pendingWidth - absDiff] is at least 5, is a Good: the
    stack gains one block, not flagged perfect, of the trimmed width and
    centred at the hook position (not snapped); the pending width becomes
    that width, which is strictly smaller than before and which differs
    from the exact difference by at most one rounding; the score grows by
    10 and the combo becomes 0. *)
Theorem C3_good_drop (w : World) (now : Z) :
  F64.reachable w -> gameState (state w) = PLAYING ->
  let below := match blocks (state w) with
               | [] => 50
               | b0 :: bs => Block.x (last bs b0)
               end in
  let d := Qabs (round64 (hookX (state w) - below)) in
  let pw := currentBlockWidth (state w) in
  3 < d -> d <= pw -> 5 <= round64 (pw - d) ->
  exists w' b,
    F64.step (EvDrop now) w = Some w' /\
    blocks (state w') = blocks (state w) ++ [b] /\
    Block.isPerfect b = Some false /\
    feedback (state w') = Some good /\
    Block.width b = round64 (pw - d) /\
    Block.x b = hookX (state w) /\
    currentBlockWidth (state w') = Block.width b /\
    currentBlockWidth (state w') < pw /\
    Qabs (currentBlockWidth (state w') - (pw - d)) <= 48 * eps64 /\
    score (state w') = (score (state w) + 10)%Z /\
    combo (state w') = 0%Z.
Proof.
  intros Hr Hp below d pw H3 Hle H5.
  destruct (f64_drop_outcome w now Hr Hp)
    as (cfg & w' & Hcfg & Hstep & Hmin & Hmax & Hcases).
  cbv zeta in Hcases. fold below in Hcases. fold d in Hcases.
  fold pw in Hcases, Hmin, Hmax.
  destruct Hcases
    as [[H E]|[(H1&H2&_)|[(H1&H2&H4&E)|(H1&H2&H4&b&Hpl&Hb1&Hb2&Hb3&Hs&Hc)]]];
    try (exfalso; qlra).
  destruct Hpl as (Pb & Pw & Pf & _).
  destruct (round64_near (pw - d)) as [Hlo Hhi]; [qlra | qlra |].
  unfold eps64 in *.
  exists w', b. repeat split; try assumption.
  - rewrite Pw, Hb2. qlra.
  - rewrite Pw, Hb2. apply Qabs_case; intros; qlra.
Qed.

(** C3 on a stack of two trimmed blocks (38 wide at 60, 33 wide at 55) with
    the hook at 65: ten units off the top block, so the new block is 23 wide
    and centred at 65. *)
Lemma C3_good_drop_witness :
  exists w' b,
    F64.step (EvDrop 7) F64.worldOffTop = Some w' /\
    hookX (state F64.worldOffTop) == 65 /\
    currentBlockWidth (state F64.worldOffTop) == 33 /\
    blocks (state w') = blocks (state F64.worldOffTop) ++ [b] /\
    Block.isPerfect b = Some false /\
    Block.width b == 23 /\ Block.x b == 65 /\
    currentBlockWidth (state w') == 23 /\
    score (state w') = 30%Z /\ combo (state w') = 0%Z.
Proof.
  assert (H3 : 3 < Qabs (round64 (hookX (state F64.worldOffTop)
                 - match blocks (state F64.worldOffTop) with
                   | [] => 50
                   | b0 :: bs => Block.x (last bs b0)
                   end)))
    by (vm_compute; reflexivity).
  assert (Hle : Qabs (round64 (hookX (state F64.worldOffTop)
                  - match blocks (state F64.worldOffTop) with
                    | [] => 50
                    | b0 :: bs => Block.x (last bs b0)
                    end))
                <= currentBlockWidth (state F64.worldOffTop))
    by (vm_compute; discriminate).
  assert (H5 : 5 <= round64 (currentBlockWidth (state F64.worldOffTop)
                  - Qabs (round64 (hookX (state F64.worldOffTop)
                      - match blocks (state F64.worldOffTop) with
                        | [] => 50
                        | b0 :: bs => Block.x (last bs b0)
                        end))))
    by (vm_compute; discriminate).
  destruct (C3_good_drop F64.worldOffTop 7%Z
              f64_worldOffTop_reachable eq_refl H3 Hle H5)
    as (w' & b & Hs & Hb & Hp & _ & Hw & Hx & Hcw & _ & _ & Hsc & Hco).
  exists w', b.
  split; [exact Hs|].
  split; [vm_compute; reflexivity|]. split; [vm_compute; reflexivity|].
  split; [exact Hb|]. split; [exact Hp|].
  split; [rewrite Hw; vm_compute; reflexivity|].
  split; [rewrite Hx; vm_compute; reflexivity|].
  split; [rewrite Hcw, Hw; vm_compute; reflexivity|].
  split; [rewrite Hsc; reflexivity | exact Hco].
Defined.

(** What a drop does to the combo on each exit that is not a Perfect: the
    trim branch resets it before it decides between Good and Miss, the
    total-miss branch returns before any reset. *)
Lemma combo_after_imperfect_drop (w : World) (cfg : LevelConfig.t) (now : Z) :
  reachable w -> gameState (state w) = PLAYING ->
  currentLevelConfig (state w) = Some cfg ->
  exists w',
    step (EvDrop now) w = Some w' /\
    (currentBlockWidth (state w) < absDiff cfg (state w) ->
     combo (state w') = combo (state w)) /\
    (absDiff cfg (state w) <= currentBlockWidth (state w) ->
     PERFECT_TOLERANCE < absDiff cfg (state w) ->
     combo (state w') = 0%Z).
Proof.
  intros Hr Hp Hcfg.
  destruct (drop_outcome w cfg now Hr Hp Hcfg) as (w' & Hstep & Hcases).
  exists w'. split; [exact Hstep|]. cbv zeta in Hcases.
  destruct Hcases
    as [[H E]|[(H1&H2&_)|[(H1&H2&H3&E)|(H1&H2&H3&b&_&_&_&_&_&Hc)]]];
    split; intros; try (exfalso; qlra); try (rewrite E; reflexivity);
    assumption.
Qed.

(** C4.  The claim that the combo is 0 after every Miss fails on a total
    miss.  Level 1: a Good drop at hook 60 (width 48 to 38), a Perfect drop
    on it (combo 1), then a drop with the hook at 10: [absDiff = 50 > 38],
    the game is over and the combo is still 1. *)
Theorem C4_total_miss_keeps_combo :
  exists w w',
    run [EvPlay; EvFrame 16 (2 # 9); EvDrop 1; EvDrop 2;
         EvFrame 900 (- (8 # 9))] initialWorld = Some w /\
    gameState (state w) = PLAYING /\
    combo (state w) = 1%Z /\
    hookX (state w) == 10 /\
    currentBlockWidth (state w) == 38 /\
    absDiff (level_of_index 0) (state w) == 50 /\
    step (EvDrop 3) w = Some w' /\
    gameState (state w') = GAME_OVER /\
    blocks (state w') = blocks (state w) /\
    combo (state w') = 1%Z.
Proof.
  eexists. eexists.
  split; [vm_compute; reflexivity|].
  split; [reflexivity|]. split; [reflexivity|].
  split; [reflexivity|]. split; [reflexivity|]. split; [reflexivity|].
  split; [vm_compute; reflexivity|].
  repeat split.
Qed.



(** ** Score *)

Lemma step_drop_config (w w' : World) (now : Z) :
  step (EvDrop now) w = Some w' ->
  exists cfg, currentLevelConfig (state w) = Some cfg.
Proof.
  unfold step. destruct (currentLevelConfig (state w)) as [cfg|];
    [eauto | discriminate].
Qed.

Lemma drop_score_mono (w w' : World) (now : Z) :
  reachable w -> step (EvDrop now) w = Some w' ->
  (score (state w) <= score (state w'))%Z.
Proof.
  intros Hr Hstep.
  destruct (step_drop_config w w' now Hstep) as [cfg Hcfg].
  destruct (GameState_eqb (gameState (state w)) PLAYING) eqn:Eg.
  - apply GameState_eqb_eq in Eg.
    destruct (reachable_playing w Hr Eg) as (_ & Hc & _).
    destruct (drop_outcome w cfg now Hr Eg Hcfg) as (w1 & Hstep1 & Hcases).
    rewrite Hstep in Hstep1. injection Hstep1 as <-. cbv zeta in Hcases.
    destruct Hcases
      as [[H E]|[(_&_&b&_&_&_&_&Hs&_)|[(_&_&_&E)|(_&_&_&b&_&_&_&_&Hs&_)]]];
      rewrite ?E, ?Hs; simpl; lia.
  - rewrite (step_drop w cfg now Hcfg) in Hstep. injection Hstep as <-.
    unfold handleDrop. rewrite Eg. simpl. lia.
Qed.

Lemma frame_score (w w' : World) (time sinv : Q) :
  step (EvFrame time sinv) w = Some w' ->
  score (state w') = score (state w).
Proof.
  unfold step. destruct (currentLevelConfig (state w)) as [cfg|];
    [|discriminate].
  destruct (_ && _); [|discriminate]. intro H. injection H as <-.
  apply animate_fields.
Qed.

Lemma feedback_timer_score (w w' : World) (ev : Event) :
  isFeedbackTimer w ev = true -> step ev w = Some w' ->
  score (state w') = score (state w).
Proof.
  destruct ev as [ | | | |now|time sinv|n]; try discriminate.
  unfold step. simpl.
  destruct (currentLevelConfig (state w)) as [cfg|]; [|discriminate].
  destruct (nth_error (timers w) n) as [[i|c| ]|]; try discriminate.
  intros _ H. injection H as <-. reflexivity.
Qed.

(** C9.  A drop made while Playing adds nothing to the score on a Miss,
    [20 + 5 * combo] on a Perfect and 10 on a Good, so never a negative
    amount.  Of the events that can occur while Playing, only a drop changes
    the score, with one exception: a deferred level reset that is still
    pending, which starts a new session (empty stack, combo 0, score 0).
    Along every sequence of drops, animation frames and feedback timeouts
    the score is non-decreasing.  The exception does lower the score while
    Playing: level 1 is completed, "next level" defers its reset, and
    "retry" starts the next level at once; a Perfect drop brings the score
    to 20, and then the deferred reset fires and the score is 0, still
    Playing. *)
Theorem C9_score_monotone :
  (forall (w : World) (cfg : LevelConfig.t) (now : Z),
     reachable w -> gameState (state w) = PLAYING ->
     currentLevelConfig (state w) = Some cfg ->
     exists w',
       step (EvDrop now) w = Some w' /\
       (score (state w) <= score (state w'))%Z /\
       ((gameState (state w') = GAME_OVER /\
         blocks (state w') = blocks (state w) /\
         score (state w') = score (state w))
        \/
        (exists b, blocks (state w') = blocks (state w) ++ [b] /\
           Block.isPerfect b = Some true /\
           score (state w') =
             (score (state w) + (20 + 5 * combo (state w)))%Z)
        \/
        (exists b, blocks (state w') = blocks (state w) ++ [b] /\
           Block.isPerfect b = Some false /\
           score (state w') = (score (state w) + 10)%Z))) /\
  (forall (w w' : World) (ev : Event),
     reachable w -> gameState (state w) = PLAYING ->
     step ev w = Some w' ->
     (exists now, ev = EvDrop now) \/
     score (state w') = score (state w) \/
     (isResetTimer w ev = true /\ score (state w') = 0%Z /\
      combo (state w') = 0%Z /\ blocks (state w') = [])) /\
  (forall (evs : list Event) (w w' : World),
     reachable w -> runSession evs w = Some w' ->
     (score (state w) <= score (state w'))%Z) /\
  (exists w w',
     run (EvPlay :: dropsInPlace 7 ++ [EvNext; EvRetry; EvDrop 0])
         initialWorld = Some w /\
     gameState (state w) = PLAYING /\ score (state w) = 20%Z /\
     timers w = [CbNextLevelReset 0; CbClearFeedback] /\
     step (EvTimer 0) w = Some w' /\
     gameState (state w') = PLAYING /\ score (state w') = 0%Z).
Proof.
  split; [|split; [|split]].
  - intros w cfg now Hr Hp Hcfg.
    destruct (reachable_playing w Hr Hp) as (_ & Hc & _).
    destruct (drop_outcome w cfg now Hr Hp Hcfg) as (w' & Hstep & Hcases).
    exists w'. split; [exact Hstep|].
    split; [exact (drop_score_mono w w' now Hr Hstep)|].
    cbv zeta in Hcases.
    destruct Hcases
      as [[H E]|[(_&_&b&Hpl&Hb&_&_&Hs&_)|[(_&_&_&E)
                |(_&_&_&b&Hpl&Hb&_&_&Hs&_)]]].
    + left. rewrite E. repeat split.
    + right; left. exists b. destruct Hpl as (Pb & _).
      repeat split; try assumption. rewrite Hs. lia.
    + left. rewrite E. repeat split.
    + right; right. exists b. destruct Hpl as (Pb & _).
      repeat split; assumption.
  - intros w w' ev Hr Hp Hstep.
    destruct ev as [ | | | |now|time sinv|n];
      try (unfold step in Hstep;
           destruct (currentLevelConfig (state w)); [|discriminate];
           cbv zeta in Hstep; rewrite Hp in Hstep; discriminate).
    + left. now exists now.
    + right; left. exact (frame_score w w' time sinv Hstep).
    + right. unfold step in Hstep.
      destruct (currentLevelConfig (state w)) as [cfg|]; [|discriminate].
      cbv zeta in Hstep.
      destruct (nth_error (timers w) n) as [cb|] eqn:En; [|discriminate].
      injection Hstep as <-. simpl. rewrite En.
      destruct cb as [i|c| ]; simpl.
      * right. destruct (nextLevelReset_fields i (state w))
          as (_ & _ & _ & Fc & Fs & Fb). auto.
      * right. auto.
      * left. reflexivity.
  - induction evs as [|ev evs IH]; intros w w' Hr Hrun; simpl in Hrun.
    + injection Hrun as <-. lia.
    + destruct (inSession ev || isFeedbackTimer w ev) eqn:Hev;
        [|discriminate].
      destruct (step ev w) as [w1|] eqn:Es; [|discriminate].
      pose proof (reachable_step ev w w1 Hr Es) as Hr1.
      specialize (IH w1 w' Hr1 Hrun).
      assert ((score (state w) <= score (state w1))%Z); [|lia].
      apply orb_true_iff in Hev. destruct Hev as [Hev|Hev].
      * destruct ev as [ | | | |now|time sinv|n]; try discriminate.
        -- exact (drop_score_mono w w1 now Hr Es).
        -- rewrite (frame_score w w1 time sinv Es). lia.
      * rewrite (feedback_timer_score w w1 ev Hev Es). lia.
  - eexists. eexists.
    split; [vm_compute; reflexivity|].
    split; [reflexivity|]. split; [reflexivity|]. split; [reflexivity|].
    split; [vm_compute; reflexivity|].
    split; reflexivity.
Qed.

(** C9 at level 1 with the hook at 60. *)
Lemma C9_score_monotone_witness :
  reachable worldHook60 /\ gameState (state worldHook60) = PLAYING /\
  currentLevelConfig (state worldHook60) = Some (level_of_index 0) /\
  exists w',
    step (EvDrop 7) worldHook60 = Some w' /\
    (score (state worldHook60) <= score (state w'))%Z /\
    ((gameState (state w') = GAME_OVER /\
      blocks (state w') = blocks (state worldHook60) /\
      score (state w') = score (state worldHook60))
     \/
     (exists b, blocks (state w') = blocks (state worldHook60) ++ [b] /\
        Block.isPerfect b = Some true /\
        score (state w') =
          (score (state worldHook60)
           + (20 + 5 * combo (state worldHook60)))%Z)
     \/
     (exists b, blocks (state w') = blocks (state worldHook60) ++ [b] /\
        Block.isPerfect b = Some false /\
        score (state w') = (score (state worldHook60) + 10)%Z)).
Proof.
  split; [exact worldHook60_reachable|].
  split; [reflexivity|]. split; [reflexivity|].
  exact (proj1 C9_score_monotone worldHook60 (level_of_index 0) 7%Z
           worldHook60_reachable eq_refl eq_refl).
Defined.

(** ** Star rating *)

Lemma perfectCount_Permutation (l1 l2 : list Block.t) :
  Permutation l1 l2 ->
  length (filter isPerfectTruthy l1) = length (filter isPerfectTruthy l2).
Proof.
  induction 1 as [|b l1 l2 _ IH|a b l|l1 l2 l3 _ IH1 _ IH2]; simpl.
  - reflexivity.
  - destruct (isPerfectTruthy b); simpl; congruence.
  - destruct (isPerfectTruthy a), (isPerfectTruthy b); reflexivity.
  - congruence.
Qed.

Lemma calculateStars_counts (r1 r2 : State) :
  gameState r1 = gameState r2 ->
  length (blocks r1) = length (blocks r2) ->
  length (filter isPerfectTruthy (blocks r1))
  = length (filter isPerfectTruthy (blocks r2)) ->
  calculateStars r1 = calculateStars r2.
Proof.
  intros Hg Hl Hp. unfold calculateStars. now rewrite Hg, Hl, Hp.
Qed.

Lemma perfectRatio_le (k p n : Z) (pc len : nat) :
  p = Z.of_nat pc -> n = Z.of_nat len -> (0 < n)%Z ->
  (k # 10 <= perfectRatio pc len <-> (k * n <= 10 * p)%Z).
Proof.
  intros -> -> Hn. unfold perfectRatio.
  destruct (Z.of_nat len) as [|q|q] eqn:E; try lia.
  unfold Qle, Qdiv, Qmult, Qinv, inject_Z. cbn [Qnum Qden].
  split; intro H; nia.
Qed.

(** C8.  [calculateStars] is 0 exactly in GameOver.  In any other state
    with a non-empty stack of [n] blocks, [p] of them flagged perfect, it is
    3 when [p / n >= 0.6] (that is [6 n <= 10 p]), 2 when the ratio is at
    least 0.3 and below 0.6, and 1 below 0.3; in LevelComplete the stack has
    at least 7 blocks.  The rating depends on the stack only through [p] and
    [n], so it is the same for any reordering of the blocks. *)
Theorem C8_star_rating :
  (forall r : State, calculateStars r = 0%Z <-> gameState r = GAME_OVER) /\
  (forall (r : State) (p n : Z),
     gameState r <> GAME_OVER -> blocks r <> [] ->
     n = Z.of_nat (length (blocks r)) ->
     p = Z.of_nat (length (filter
           (fun b => match Block.isPerfect b with
                     | Some true => true
                     | _ => false
                     end) (blocks r))) ->
     ((6 * n <= 10 * p)%Z -> calculateStars r = 3%Z) /\
     ((3 * n <= 10 * p)%Z -> (10 * p < 6 * n)%Z -> calculateStars r = 2%Z) /\
     ((10 * p < 3 * n)%Z -> calculateStars r = 1%Z)) /\
  (forall w : World,
     reachable w -> gameState (state w) = LEVEL_COMPLETE ->
     (7 <= length (blocks (state w)))%nat) /\
  (forall r1 r2 : State,
     gameState r1 = gameState r2 ->
     length (blocks r1) = length (blocks r2) ->
     length (filter
       (fun b => match Block.isPerfect b with
                 | Some true => true
                 | _ => false
                 end) (blocks r1))
     = length (filter
       (fun b => match Block.isPerfect b with
                 | Some true => true
                 | _ => false
                 end) (blocks r2)) ->
     calculateStars r1 = calculateStars r2) /\
  (forall r1 r2 : State,
     gameState r1 = gameState r2 ->
     Permutation (blocks r1) (blocks r2) ->
     calculateStars r1 = calculateStars r2).
Proof.
  split; [|split; [|split; [|split]]].
  - intro r. unfold calculateStars.
    destruct (GameState_eqb (gameState r) GAME_OVER) eqn:E.
    + apply GameState_eqb_eq in E. tauto.
    + assert (gameState r <> GAME_OVER).
      { intro H. apply GameState_eqb_eq in H. congruence. }
      destruct (length (blocks r)); [split; [discriminate|contradiction]|].
      destruct (Qle_bool (6 # 10) _);
        [|destruct (Qle_bool (3 # 10) _)];
        split; (discriminate || contradiction).
  - intros r p n Hg Hb Hn Hp.
    change (fun b => match Block.isPerfect b with
                     | Some true => true
                     | _ => false
                     end) with isPerfectTruthy in Hp.
    assert (Hpos : (0 < n)%Z).
    { rewrite Hn. destruct (blocks r); [contradiction | cbn [length]; lia]. }
    pose proof (perfectRatio_le 6 p n _ _ Hp Hn Hpos) as H6.
    pose proof (perfectRatio_le 3 p n _ _ Hp Hn Hpos) as H3.
    unfold calculateStars.
    destruct (GameState_eqb (gameState r) GAME_OVER) eqn:E.
    { apply GameState_eqb_eq in E. contradiction. }
    destruct (length (blocks r)) as [|k] eqn:El; [lia|]. cbv zeta.
    destruct (Qle_bool (6 # 10) _) eqn:E6;
      [|destruct (Qle_bool (3 # 10) _) eqn:E3].
    + apply Qle_bool_iff in E6. apply H6 in E6.
      repeat split; intros; try reflexivity; exfalso; lia.
    + apply Qle_bool_false_iff in E6. apply Qle_bool_iff in E3.
      apply H3 in E3.
      assert ((10 * p < 6 * n)%Z).
      { apply Z.lt_nge. intro Hc. apply H6 in Hc. qlra. }
      repeat split; intros; try reflexivity; exfalso; lia.
    + apply Qle_bool_false_iff in E6, E3.
      assert ((10 * p < 3 * n)%Z).
      { apply Z.lt_nge. intro Hc. apply H3 in Hc. qlra. }
      repeat split; intros; try reflexivity; exfalso; lia.
  - intros w Hr Hc. destruct (reachable_Inv w Hr) as [_ [[Hm _]|Hs]].
    + congruence.
    + exact (inv_complete _ Hs Hc).
  - exact calculateStars_counts.
  - intros r1 r2 Hg Hp. apply calculateStars_counts; [exact Hg| |].
    + now apply Permutation_length.
    + now apply perfectCount_Permutation.
Qed.

Lemma worldLevel1Done_reachable : reachable worldLevel1Done.
Proof. exists (EvPlay :: repeat (EvDrop 0) 7). vm_compute. reflexivity. Qed.

(** C8 at level 1 completed with seven perfect drops: three stars. *)
Lemma C8_star_rating_witness :
  reachable worldLevel1Done /\
  gameState (state worldLevel1Done) = LEVEL_COMPLETE /\
  length (blocks (state worldLevel1Done)) = 7%nat /\
  Forall (fun b => Block.isPerfect b = Some true)
         (blocks (state worldLevel1Done)) /\
  calculateStars (state worldLevel1Done) = 3%Z.
Proof.
  split; [exact worldLevel1Done_reachable|].
  split; [vm_compute; reflexivity|]. split; [vm_compute; reflexivity|].
  split; [vm_compute; repeat constructor|].
  refine (proj1 (proj1 (proj2 C8_star_rating) (state worldLevel1Done)
                   7%Z 7%Z _ _ _ _) _).
  - vm_compute. discriminate.
  - vm_compute. discriminate.
  - vm_compute. reflexivity.
  - vm_compute. reflexivity.
  - lia.
Defined.

(** ** Stack discipline *)



Lemma worldTwoBlocks_reachable : reachable worldTwoBlocks.
Proof.
  exists [EvPlay; EvFrame 16 (2 # 9); EvDrop 1; EvDrop 2].
  vm_compute. reflexivity.
Qed.


(** ** Hook oscillation over the reals *)

Section HookReal.
Import Reals Lra.
Local Open Scope R_scope.

Lemma position_range (cfg : LevelConfig.t) (r : State) (time : Q) :
  5 <= Hook.position cfg r time <= 95.
Proof.
  unfold Hook.position.
  pose proof (SIN_bound (Q2R (time * hookSpeed cfg r))). lra.
Qed.

(** The formula of [updateHookPosition] in real arithmetic. *)
Lemma position_formula (cfg : LevelConfig.t) (r : State) (time : Q) :
  Hook.position cfg r time =
  50 + sin (Q2R time *
            (Q2R (LevelConfig.baseSpeed cfg)
             * (1 + INR (length (blocks r)) * 0.05) * 0.002)) * 45.
Proof.
  unfold Hook.position, hookSpeed.
  rewrite !Q2R_mult, Q2R_plus, Q2R_mult.
  replace (Q2R (inject_Z (Z.of_nat (length (blocks r)))))
    with (INR (length (blocks r))).
  2:{ unfold Q2R, inject_Z. simpl. rewrite <- INR_IZR_INZ. lra. }
  replace (Q2R (5 # 100)) with 0.05 by (unfold Q2R; simpl; lra).
  replace (Q2R (2 # 1000)) with 0.002 by (unfold Q2R; simpl; lra).
  replace (Q2R 1) with 1 by (unfold Q2R; simpl; lra).
  reflexivity.
Qed.

(** The game model stores this position whenever the sine it is given is
    the sine of [time * speed]. *)
Lemma animate_position (cfg : LevelConfig.t) (time sinv : Q) (st : State) :
  gameState st = PLAYING ->
  Q2R sinv = sin (Q2R (time * hookSpeed cfg st)) ->
  Q2R (hookX (animate cfg time sinv st st)) = Hook.position cfg st time.
Proof.
  intros Hp Hs.
  destruct (animate_fields cfg time sinv st) as (_&_&_&_&_&_&_&Fh).
  rewrite Fh, Hp. cbn [GameState_eqb].
  unfold Hook.position. rewrite Q2R_plus, Q2R_mult, Hs.
  replace (Q2R 50) with 50 by (unfold Q2R; simpl; lra).
  replace (Q2R 45) with 45 by (unfold Q2R; simpl; lra).
  lra.
Qed.

(** C5.  The position stays in [5, 95] (the real-valued formula, and the
    [hookX] of every reachable state), but its phase is the timestamp of
    the animation frame, not the time elapsed since the session started.
    Level 1 is started and its first frame arrives at timestamp 1000:
    [animate] records 1000 as the start time, so the elapsed time is 0,
    for which the formula of the claim gives 50; the position computed
    is [50 + 45 * sin 2.4], which is greater than 50. *)
Theorem C5_hook_phase_is_frame_time :
  (forall (cfg : LevelConfig.t) (r : State) (time : Q),
     5 <= Hook.position cfg r time <= 95) /\
  (forall w : World,
     reachable w -> (5 <= hookX (state w) /\ hookX (state w) <= 95)%Q) /\
  gameState (state worldStarted) = PLAYING /\
  currentLevelConfig (state worldStarted) = Some (level_of_index 0) /\
  startTimeRef (state worldStarted) = None /\
  (forall sinv : Q,
     Hook.elapsed
       (animate (level_of_index 0) 1000 sinv
                (state worldStarted) (state worldStarted)) 1000
     = Some (1000 - 1000)%Q) /\
  Hook.position (level_of_index 0) (state worldStarted) (1000 - 1000)%Q
  = 50 /\
  Hook.position (level_of_index 0) (state worldStarted) 1000%Q
  = 50 + sin 2.4 * 45 /\
  50 < Hook.position (level_of_index 0) (state worldStarted) 1000%Q.
Proof.
  assert (Harg : Q2R (1000 * hookSpeed (level_of_index 0)
                               (state worldStarted)) = 2.4).
  { rewrite (Qeq_eqR _ (24 # 10)) by (vm_compute; reflexivity).
    unfold Q2R. simpl. lra. }
  assert (Hzero : Q2R ((1000 - 1000) * hookSpeed (level_of_index 0)
                                         (state worldStarted)) = 0).
  { rewrite (Qeq_eqR _ 0%Q) by (vm_compute; reflexivity).
    unfold Q2R. simpl. lra. }
  assert (Hsin : 0 < sin 2.4).
  { apply sin_gt_0; [lra|]. pose proof PI2_3_2. lra. }
  split; [exact position_range|].
  split; [intros w Hr; exact (inv_hook w (proj1 (reachable_Inv w Hr)))|].
  split; [reflexivity|]. split; [reflexivity|]. split; [reflexivity|].
  split; [intro sinv; reflexivity|].
  unfold Hook.position. rewrite Harg, Hzero, sin_0.
  repeat split; lra.
Qed.
End HookReal.

(** ** Level progression *)

(** [nextLevel] below the last level: the index advances at once and the
    deferred callback resets the session with the next level's width. *)
Lemma nextLevel_advances (w : World) :
  reachable w -> gameState (state w) = LEVEL_COMPLETE ->
  (currentLevelIdx (state w) < length LEVELS - 1)%nat ->
  exists w1 w2 next,
    step EvNext w = Some w1 /\
    currentLevelIdx (state w1) = (currentLevelIdx (state w) + 1)%nat /\
    step (EvTimer (length (timers w))) w1 = Some w2 /\
    currentLevelIdx (state w2) = (currentLevelIdx (state w) + 1)%nat /\
    currentLevelConfig (state w2) = Some next /\
    currentBlockWidth (state w2) = LevelConfig.initialWidth next /\
    blocks (state w2) = [] /\ score (state w2) = 0%Z /\
    combo (state w2) = 0%Z /\ gameState (state w2) = PLAYING.
Proof.
  intros Hr Hc Hlt.
  destruct (reachable_config w Hr) as [cfg Hcfg].
  destruct (nth_error LEVELS (currentLevelIdx (state w) + 1)) as [next|] eqn:En.
  2:{ apply nth_error_None in En. lia. }
  eexists. eexists. exists next.
  split.
  { unfold step. rewrite Hcfg, Hc. cbn [GameState_eqb]. unfold nextLevel.
    rewrite (proj2 (Nat.ltb_lt _ _) Hlt). reflexivity. }
  split; [reflexivity|].
  split.
  { unfold step. cbn [state timers]. unfold currentLevelConfig.
    cbn [currentLevelIdx setCurrentLevelIdx]. rewrite En.
    rewrite nth_error_app2 by lia. rewrite Nat.sub_diag. reflexivity. }
  cbn [state runCallback]. unfold nextLevelReset, currentLevelConfig.
  rewrite En. simpl. rewrite En. repeat split.
Qed.

(** C6.  The wrap after the last level does not use level 0's
    configuration.  Nine levels are completed and left and the tenth is
    completed; "next level" sets the index to 0 and defers [startGame], which
    still closes over the tenth level's configuration: after it has run the
    level is level 1 (initial width 48) and the pending width is 30. *)
Theorem C6_wrap_uses_stale_level :
  exists w9 w1 w2 cfg0,
    run toLastLevelComplete initialWorld = Some w9 /\
    gameState (state w9) = LEVEL_COMPLETE /\
    currentLevelIdx (state w9) = 9%nat /\
    step EvNext w9 = Some w1 /\
    currentLevelIdx (state w1) = 0%nat /\
    timers w1 = [CbStartGame (level_of_index 9)] /\
    step (EvTimer 0) w1 = Some w2 /\
    gameState (state w2) = PLAYING /\
    blocks (state w2) = [] /\
    currentLevelIdx (state w2) = 0%nat /\
    currentLevelConfig (state w2) = Some cfg0 /\
    LevelConfig.levelNumber cfg0 = 1%nat /\
    LevelConfig.initialWidth cfg0 = 48 /\
    currentBlockWidth (state w2) = 30.
Proof.
  eexists. eexists. eexists. eexists.
  split; [vm_compute; reflexivity|].
  split; [reflexivity|]. split; [reflexivity|].
  split; [vm_compute; reflexivity|].
  split; [reflexivity|]. split; [reflexivity|].
  split; [vm_compute; reflexivity|].
  split; [reflexivity|]. split; [reflexivity|]. split; [reflexivity|].
  split; [vm_compute; reflexivity|].
  repeat split.
Qed.

(** * Further properties of the code *)

(** ** The level generator *)

Lemma palette_of_index (i : nat) :
  length (LevelConfig.colorPalette (level_of_index i)) = 2%nat.
Proof.
  unfold level_of_index. cbn [LevelConfig.colorPalette].
  assert (H : (i mod length COLORS < 8)%nat)
    by (apply Nat.mod_upper_bound; discriminate).
  destruct (i mod length COLORS)%nat as [|[|[|[|[|[|[|[|k]]]]]]]];
    try reflexivity. lia.
Qed.

Lemma paletteColor_defined (i n : nat) :
  paletteColor (level_of_index i) n <> None.
Proof.
  unfold paletteColor. pose proof (palette_of_index i) as Hl.
  destruct (length (LevelConfig.colorPalette (level_of_index i))) eqn:E;
    [discriminate|].
  apply nth_error_Some. rewrite E. apply Nat.mod_upper_bound. discriminate.
Qed.

(** X1.  The generator, for any index: the level number is the index plus
    one, the target is [2 i + 7] blocks, the initial width is [48 - 2 i] down
    to the floor of 20 that [Math.max] keeps from index 14 on, and the
    palette has two colours, shared by indices that differ by 8.  [LEVELS]
    holds exactly the configurations of the indices below 10, so none of its
    widths is at the floor. *)
Theorem X1_level_generator :
  (forall i : nat,
     let cfg := level_of_index i in
     LevelConfig.levelNumber cfg = (i + 1)%nat /\
     LevelConfig.targetBlocks cfg = (2 * i + 7)%nat /\
     20 <= LevelConfig.initialWidth cfg /\
     ((i <= 14)%nat ->
      LevelConfig.initialWidth cfg = inject_Z (48 - 2 * Z.of_nat i)) /\
     ((14 <= i)%nat -> LevelConfig.initialWidth cfg = 20) /\
     length (LevelConfig.colorPalette cfg) = 2%nat /\
     LevelConfig.colorPalette (level_of_index (i + 8)) =
       LevelConfig.colorPalette cfg) /\
  (forall i : nat,
     nth_error LEVELS i =
       if (i <? 10)%nat then Some (level_of_index i) else None) /\
  (forall (i : nat) (cfg : LevelConfig.t),
     nth_error LEVELS i = Some cfg ->
     30 <= LevelConfig.initialWidth cfg /\
     LevelConfig.initialWidth cfg <= 48 /\
     (7 <= LevelConfig.targetBlocks cfg <= 25)%nat).
Proof.
  split; [|split].
  - intro i. cbv zeta. unfold level_of_index.
    cbn [LevelConfig.levelNumber LevelConfig.targetBlocks
         LevelConfig.initialWidth LevelConfig.colorPalette].
    split; [reflexivity|]. split; [lia|].
    split; [unfold Qle, inject_Z; cbn [Qnum Qden]; lia|].
    split; [intro Hi; f_equal; lia|].
    split; [intro Hi; change 20 with (inject_Z 20); f_equal; lia|].
    split; [exact (palette_of_index i)|].
    f_equal. change (length COLORS) with 8%nat.
    rewrite <- (Nat.Div0.add_mod_idemp_r i 8 8).
    rewrite Nat.Div0.mod_same. now rewrite Nat.add_0_r.
  - intro i. destruct (i <? 10)%nat eqn:E.
    + apply Nat.ltb_lt in E.
      destruct (nth_error LEVELS i) as [cfg|] eqn:En.
      * now destruct (LEVELS_nth i cfg En) as [_ ->].
      * apply nth_error_None in En. rewrite LEVELS_length in En. lia.
    + apply Nat.ltb_ge in E. apply nth_error_None.
      now rewrite LEVELS_length.
  - intros i cfg H. destruct (LEVELS_nth i cfg H) as [Hi ->].
    unfold MAX_LEVELS in Hi. unfold level_of_index.
    cbn [LevelConfig.targetBlocks LevelConfig.initialWidth].
    unfold Qle, inject_Z; cbn [Qnum Qden]. lia.
Qed.

(** X1 at the last configured level. *)
Lemma X1_level_generator_witness :
  nth_error LEVELS 9 = Some (level_of_index 9) /\
  30 <= LevelConfig.initialWidth (level_of_index 9) /\
  LevelConfig.initialWidth (level_of_index 9) <= 48 /\
  (7 <= LevelConfig.targetBlocks (level_of_index 9) <= 25)%nat.
Proof.
  split; [reflexivity|].
  exact (proj2 (proj2 X1_level_generator) 9%nat (level_of_index 9) eq_refl).
Defined.

(** ** Bookkeeping kept by every event *)

Lemma scoreFrom_snoc (bs : list Block.t) (b : Block.t) (c : Z) :
  scoreFrom c (bs ++ [b]) =
  (scoreFrom c bs
   + (if isPerfectTruthy b then 20 + 5 * comboFrom c bs else 10))%Z.
Proof.
  revert c. induction bs as [|a bs IH]; intro c;
    cbn [app scoreFrom comboFrom].
  - destruct (isPerfectTruthy b); lia.
  - destruct (isPerfectTruthy a); rewrite IH; lia.
Qed.

Lemma comboFrom_snoc (bs : list Block.t) (b : Block.t) (c : Z) :
  comboFrom c (bs ++ [b]) =
  if isPerfectTruthy b then (comboFrom c bs + 1)%Z else 0%Z.
Proof.
  revert c. induction bs as [|a bs IH]; intro c; cbn [app comboFrom].
  - reflexivity.
  - destruct (isPerfectTruthy a); apply IH.
Qed.

Lemma addNewBlock_camera (cfg : LevelConfig.t) (now : Z) (r st : State)
    (p : bool) (nw px : Q) :
  cameraY (fst (addNewBlock cfg now r st p nw px)) =
  if (LevelConfig.targetBlocks cfg <=? length (blocks r) + 1)%nat
  then cameraY st
  else if (3 <? length (blocks r) + 1)%nat
       then (cameraY st + BLOCK_HEIGHT)%Z else cameraY st.
Proof.
  unfold addNewBlock. cbv zeta. rewrite length_app. cbn [length].
  destruct (LevelConfig.targetBlocks cfg <=? _)%nat;
    [|destruct (3 <? _)%nat]; reflexivity.
Qed.

Lemma playInv_ext (st st' : State) :
  blocks st' = blocks st -> score st' = score st ->
  cameraY st' = cameraY st ->
  (gameState st' = PLAYING -> currentLevelIdx st' = currentLevelIdx st) ->
  (gameState st' = PLAYING \/ gameState st' = LEVEL_COMPLETE ->
   gameState st' = gameState st /\ combo st' = combo st) ->
  (gameState st' = LEVEL_COMPLETE <-> gameState st = LEVEL_COMPLETE) ->
  playInv st -> playInv st'.
Proof.
  intros Hb Hs Hc Hi Hg Hlc [P1 P2 P3 P4 P5 P6 P7 P8].
  constructor; rewrite ?Hb, ?Hs, ?Hc; auto.
  - intro H. destruct (Hg H) as [Hg1 Hg2]. rewrite Hg2. apply P5.
    now rewrite <- Hg1.
  - rewrite P6. unfold cameraFor.
    destruct (gameState st') eqn:E1, (gameState st) eqn:E2;
      try reflexivity;
      try (assert (LEVEL_COMPLETE = LEVEL_COMPLETE) as _ by reflexivity;
           destruct Hlc as [H1 H2];
           (specialize (H1 eq_refl) || specialize (H2 eq_refl));
           discriminate).
  - intros cfg Hp Hcfg. destruct (Hg (or_introl Hp)) as [Hg1 _].
    apply P7; [congruence|].
    unfold currentLevelConfig in *. now rewrite <- (Hi Hp).
Qed.

Lemma playInv_fresh (st : State) :
  blocks st = [] -> score st = 0%Z -> combo st = 0%Z -> cameraY st = 0%Z ->
  (currentLevelIdx st < length LEVELS)%nat ->
  playInv st.
Proof.
  intros Hb Hs Hc Hy Hi. constructor; rewrite ?Hb; simpl; auto; try lia.
  - intros i b H. destruct i; discriminate.
  - intros i a b H. destruct i; discriminate.
  - rewrite Hy. destruct (gameState st); reflexivity.
  - intros cfg _ Hcfg. destruct (LEVELS_nth_ok _ _ Hcfg) as [_ Ht]. lia.
Qed.

(** The state after a drop that placed a block, from what held before. *)
Lemma playInv_push (cfg : LevelConfig.t) (now : Z) (st s2 : State)
    (p : bool) (nw px : Q) :
  playInv st -> gameState st = PLAYING ->
  currentLevelConfig st = Some cfg ->
  gameState s2 = PLAYING -> currentLevelIdx s2 = currentLevelIdx st ->
  cameraY s2 = cameraY st ->
  score s2 = (score st + (if p then 20 + 5 * combo st else 10))%Z ->
  combo s2 = (if p then combo st + 1 else 0)%Z ->
  5 <= px -> px <= 95 ->
  match blocks st with
  | [] => True
  | b0 :: bs =>
      Block.width (newBlock cfg now st p nw px)
      == Block.width (last bs b0) - Qabs (px - Block.x (last bs b0))
  end ->
  playInv (fst (addNewBlock cfg now st s2 p nw px)).
Proof.
  intros [P1 P2 P3 P4 P5 P6 P7 P8] Hp Hcfg Hp2 Hi2 Hy2 Hs2 Hc2 Hx1 Hx2 Hadj.
  destruct (addNewBlock_fields cfg now st s2 p nw px)
    as (Fb & _ & Fg & Fs & Fc & _ & Fi & _).
  pose proof (addNewBlock_camera cfg now st s2 p nw px) as Fy.
  set (res := fst (addNewBlock cfg now st s2 p nw px)) in *.
  set (nb := newBlock cfg now st p nw px) in *.
  assert (Hnb : isPerfectTruthy nb = p) by (destruct p; reflexivity).
  destruct (LEVELS_nth _ _ Hcfg) as [Hlt Ecfg].
  pose proof (P7 cfg Hp Hcfg) as Hprog.
  pose proof (P5 (or_introl Hp)) as Hcombo.
  assert (Htarget : (LevelConfig.targetBlocks cfg <= 25)%nat).
  { rewrite Ecfg. unfold MAX_LEVELS in Hlt. simpl. lia. }
  rewrite length_app in Fg. cbn [length] in Fg.
  constructor; rewrite ?Fb.
  - intros i b H.
    destruct (Nat.lt_ge_cases i (length (blocks st))) as [Hl|Hl].
    + rewrite nth_error_app1 in H by lia. now apply P1.
    + rewrite nth_error_app2 in H by lia.
      destruct (i - length (blocks st))%nat as [|[|k]] eqn:E;
        simpl in H; try discriminate.
      injection H as <-. simpl. lia.
  - apply Forall_app. split; [exact P2|]. constructor; [|constructor].
    unfold blockOk, nb. simpl. repeat split; try assumption.
    + rewrite Ecfg. apply paletteColor_defined.
    + discriminate.
  - intros i a b Ha Hb.
    destruct (Nat.lt_ge_cases (S i) (length (blocks st))) as [Hl|Hl].
    + rewrite nth_error_app1 in Ha, Hb by lia. eapply P3; eassumption.
    + rewrite nth_error_app2 in Hb by lia.
      destruct (S i - length (blocks st))%nat as [|[|k]] eqn:E;
        simpl in Hb; try discriminate.
      injection Hb as <-.
      assert (Hlen : length (blocks st) = S i) by lia.
      rewrite nth_error_app1 in Ha by lia.
      destruct (blocks st) as [|b0 bs] eqn:Eb; [discriminate|].
      cbn [length] in Hlen. injection Hlen as Hlen. subst i.
      rewrite nth_error_top in Ha. injection Ha as <-. exact Hadj.
  - rewrite Fs, Hs2, scoreFrom_snoc, Hnb, <- P4, <- Hcombo.
    destruct p; reflexivity.
  - intros _. rewrite Fc, Hc2, comboFrom_snoc, Hnb, <- Hcombo.
    destruct p; reflexivity.
  - rewrite Fy, Fg, Hy2, P6, Hp, length_app. cbn [length cameraFor].
    unfold BLOCK_HEIGHT.
    destruct (LevelConfig.targetBlocks cfg <=? length (blocks st) + 1)%nat
      eqn:E1; [cbn [cameraFor]; unfold BLOCK_HEIGHT; lia|].
    rewrite Hp2. cbn [cameraFor]. unfold BLOCK_HEIGHT.
    destruct (3 <? length (blocks st) + 1)%nat eqn:E2.
    + apply Nat.ltb_lt in E2. lia.
    + apply Nat.ltb_ge in E2. lia.
  - intros cfg' Hg' Hcfg'. rewrite length_app. cbn [length].
    assert (cfg' = cfg) as ->.
    { unfold currentLevelConfig in *. rewrite Fi, Hi2 in Hcfg'. congruence. }
    rewrite Fg in Hg'.
    destruct (LevelConfig.targetBlocks cfg <=? length (blocks st) + 1)%nat
      eqn:E1; [discriminate|].
    apply Nat.leb_gt in E1. lia.
  - rewrite length_app. cbn [length]. lia.
Qed.

Lemma previousBlock_range (cfg : LevelConfig.t) (st : State) :
  Forall blockOk (blocks st) ->
  5 <= fst (previousBlock cfg st) /\ fst (previousBlock cfg st) <= 95.
Proof.
  intro H. unfold previousBlock.
  destruct (blocks st) as [|b0 bs] eqn:E; simpl.
  - split; unfold Qle; simpl; lia.
  - pose proof (nth_error_top b0 bs) as Ht. apply nth_error_In in Ht.
    destruct (proj1 (Forall_forall _ _) H _ Ht) as (_ & _ & H1 & H2).
    now split.
Qed.

Lemma handleDrop_playInv (w : World) (cfg : LevelConfig.t) (now : Z) :
  reachable w -> playInv (state w) ->
  currentLevelConfig (state w) = Some cfg ->
  playInv (fst (handleDrop cfg now (state w) (state w))).
Proof.
  intros Hr HP Hcfg.
  destruct (GameState_eqb (gameState (state w)) PLAYING) eqn:Eg.
  2:{ unfold handleDrop. rewrite Eg. exact HP. }
  apply GameState_eqb_eq in Eg.
  destruct (reachable_playing w Hr Eg) as (Hg & _ & Hs).
  destruct (reachable_Inv w Hr) as [Hb _].
  destruct (inv_hook w Hb) as [Hh1 Hh2].
  pose proof (inv_pending _ Hs) as Hpend.
  destruct (previousBlock_range cfg (state w) (pi_block _ HP)) as [Hx1 Hx2].
  destruct (handleDrop_exits cfg (state w))
    as [H|[[H1 H2]|[(H1&H2&H3)|(H1&H2&H3)]]].
  - rewrite (handleDrop_total_miss cfg now _ Eg Hg H). cbn [fst].
    apply (playInv_ext (state w)); simpl; auto;
      try (intros [?|?]; discriminate).
    rewrite Eg. split; discriminate.
  - rewrite (handleDrop_perfect cfg now _ Eg Hg H1 H2).
    apply playInv_push;
      [exact HP | exact Eg | exact Hcfg | exact Eg | reflexivity
      | reflexivity | cbn [score setFeedback setScore setCombo]; lia
      | reflexivity | exact Hx1 | exact Hx2 | ].
    destruct (blocks (state w)) as [|b0 bs] eqn:Eb; [exact I|].
    cbn [topWidth] in Hpend.
    cbn [newBlock Block.width]. unfold previousBlock. rewrite Eb.
    cbn [fst]. rewrite Hpend.
    assert (E0 : Block.x (last bs b0) - Block.x (last bs b0) == 0) by ring.
    rewrite E0. change (Qabs 0) with 0. ring.
  - rewrite (handleDrop_trim_miss cfg now _ Eg Hg H1 H2 H3). cbn [fst].
    apply (playInv_ext (state w)); simpl; auto;
      try (intros [?|?]; discriminate).
    rewrite Eg. split; discriminate.
  - rewrite (handleDrop_good cfg now _ Eg Hg H1 H2 H3).
    apply playInv_push;
      [exact HP | exact Eg | exact Hcfg | exact Eg | reflexivity
      | reflexivity | reflexivity | reflexivity | exact Hh1 | exact Hh2 | ].
    destruct (blocks (state w)) as [|b0 bs] eqn:Eb; [exact I|].
    cbn [topWidth] in Hpend.
    cbn [newBlock Block.width]. unfold absDiff, previousBlock. rewrite Eb.
    cbn [fst]. rewrite Hpend. reflexivity.
Qed.

Lemma step_playInv (ev : Event) (w w' : World) :
  reachable w -> playInv (state w) -> step ev w = Some w' ->
  playInv (state w').
Proof.
  intros Hr HP Hstep.
  destruct (reachable_Inv w Hr) as [Hb Hst].
  pose proof (inv_level w Hb) as Hlvl.
  unfold step in Hstep.
  destruct (currentLevelConfig (state w)) as [cfg|] eqn:Hcfg; [|discriminate].
  cbv zeta in Hstep.
  destruct ev as [ | | | |now|time sinv|n].
  - destruct (GameState_eqb _ MENU); [|discriminate].
    injection Hstep as <-. cbn [state]. now apply playInv_fresh.
  - destruct (GameState_eqb _ LEVEL_COMPLETE) eqn:Eg; [|discriminate].
    apply GameState_eqb_eq in Eg. unfold nextLevel in Hstep.
    destruct (currentLevelIdx (state w) <? length LEVELS - 1)%nat;
      injection Hstep as <-; cbn [state];
      apply (playInv_ext (state w)); simpl; auto;
      rewrite ?Eg; try tauto; intro; discriminate.
  - destruct (_ || _); [|discriminate].
    injection Hstep as <-. cbn [state]. now apply playInv_fresh.
  - destruct (GameState_eqb _ GAME_OVER) eqn:Eg; [|discriminate].
    apply GameState_eqb_eq in Eg. injection Hstep as <-. cbn [state].
    apply (playInv_ext (state w)); simpl; auto;
      try (intros [?|?]; discriminate).
    rewrite Eg. split; discriminate.
  - pose proof (handleDrop_playInv w cfg now Hr HP Hcfg) as H.
    destruct (handleDrop cfg now (state w) (state w)) as [st' cbs].
    injection Hstep as <-. exact H.
  - destruct (_ && _); [|discriminate]. injection Hstep as <-. cbn [state].
    unfold animate, updateHookPosition.
    destruct (startTime_unset (state w)),
             (GameState_eqb (gameState (state w)) PLAYING);
      simpl; apply (playInv_ext (state w)); simpl; auto; tauto.
  - destruct (nth_error (timers w) n) as [cb|] eqn:En; [|discriminate].
    injection Hstep as <-. cbn [state].
    destruct cb as [i|c| ]; cbn [runCallback].
    + unfold nextLevelReset.
      destruct (nth_error LEVELS (i + 1)); now apply playInv_fresh.
    + now apply playInv_fresh.
    + apply (playInv_ext (state w)); simpl; auto; tauto.
Qed.

Lemma reachable_playInv (w : World) : reachable w -> playInv (state w).
Proof.
  intros [evs Hrun].
  assert (G : forall evs w0 w1, reachable w0 -> playInv (state w0) ->
                run evs w0 = Some w1 -> playInv (state w1)).
  { clear. induction evs as [|ev evs IH]; intros w0 w1 Hr HP H; simpl in H.
    - now injection H as <-.
    - destruct (step ev w0) as [w2|] eqn:E; [|discriminate].
      apply (IH w2 w1); [eapply reachable_step; eassumption| |exact H].
      eapply step_playInv; eassumption. }
  apply (G evs initialWorld w); [exists []; reflexivity| |exact Hrun].
  apply playInv_fresh; simpl; auto. lia.
Qed.

(** ** Properties of every reachable state *)

(** X2.  The application never reads outside [LEVELS]: in every reachable
    state the render finds its level configuration, whose number is the
    level index plus one; a drop, an animation frame with a sine in
    [[-1, 1]] and every pending timeout can run; and every pending
    next-level callback finds the configuration of its next level. *)
Theorem X2_render_defined (w : World) :
  reachable w ->
  (exists cfg,
     currentLevelConfig (state w) = Some cfg /\
     LevelConfig.levelNumber cfg = (currentLevelIdx (state w) + 1)%nat) /\
  (forall now, exists w', step (EvDrop now) w = Some w') /\
  (forall time sinv, -1 <= sinv -> sinv <= 1 ->
     exists w', step (EvFrame time sinv) w = Some w') /\
  (forall n, (n < length (timers w))%nat ->
     exists w', step (EvTimer n) w = Some w') /\
  (forall n i, nth_error (timers w) n = Some (CbNextLevelReset i) ->
     exists next, nth_error LEVELS (i + 1) = Some next).
Proof.
  intro Hr. destruct (reachable_Inv w Hr) as [Hb _].
  destruct (currentLevelConfig_defined _ (inv_level w Hb)) as (cfg & Hcfg & _).
  split; [|split; [|split; [|split]]].
  - exists cfg. split; [exact Hcfg|].
    destruct (LEVELS_nth _ _ Hcfg) as [_ ->]. reflexivity.
  - intro now. rewrite (step_drop w cfg now Hcfg). eauto.
  - intros time sinv H1 H2. unfold step. rewrite Hcfg. cbv zeta.
    rewrite (proj2 (Qle_bool_iff _ _) H1), (proj2 (Qle_bool_iff _ _) H2).
    simpl. eauto.
  - intros n Hn. unfold step. rewrite Hcfg. cbv zeta.
    destruct (nth_error (timers w) n) eqn:E; [eauto|].
    apply nth_error_None in E. lia.
  - intros n i Hn. apply nth_error_In in Hn.
    pose proof (proj1 (Forall_forall _ _) (inv_timers w Hb) _ Hn) as Hok.
    cbn [callbackOk] in Hok.
    destruct (nth_error LEVELS (i + 1)) eqn:E; [eauto|].
    apply nth_error_None in E. lia.
Qed.

(** X2 at level 1 with two blocks placed. *)
Lemma X2_render_defined_witness :
  reachable worldTwoBlocks /\
  (exists cfg,
     currentLevelConfig (state worldTwoBlocks) = Some cfg /\
     LevelConfig.levelNumber cfg
     = (currentLevelIdx (state worldTwoBlocks) + 1)%nat) /\
  (forall now, exists w', step (EvDrop now) worldTwoBlocks = Some w').
Proof.
  split; [exact worldTwoBlocks_reachable|].
  split; apply (X2_render_defined worldTwoBlocks worldTwoBlocks_reachable).
Defined.

(** X3.  Outside Playing a drop changes nothing at all, and an animation
    frame changes nothing but the start-time reference: the hook stays where
    it was. *)
Theorem X3_idle_outside_playing (w w' : World) :
  gameState (state w) <> PLAYING ->
  (forall now, step (EvDrop now) w = Some w' -> w' = w) /\
  (forall time sinv, step (EvFrame time sinv) w = Some w' ->
     timers w' = timers w /\
     state w' = setStartTimeRef (startTimeRef (state w')) (state w)).
Proof.
  intro Hg.
  assert (Eg : GameState_eqb (gameState (state w)) PLAYING = false).
  { destruct (GameState_eqb _ _) eqn:E; [|reflexivity].
    apply GameState_eqb_eq in E. contradiction. }
  split.
  - intros now H. unfold step in H.
    destruct (currentLevelConfig (state w)); [|discriminate].
    cbv zeta in H. unfold handleDrop in H. rewrite Eg in H. simpl in H.
    injection H as <-. rewrite app_nil_r. now destruct w.
  - intros time sinv H. unfold step in H.
    destruct (currentLevelConfig (state w)); [|discriminate].
    cbv zeta in H. destruct (_ && _); [|discriminate].
    injection H as <-. cbn [state timers]. split; [reflexivity|].
    unfold animate, updateHookPosition.
    destruct (startTime_unset (state w)); cbn [gameState setStartTimeRef];
      rewrite Eg; cbn [negb]; now destruct (state w).
Qed.

(** X3 at level 1 lost by a first drop at the right edge. *)
Lemma X3_idle_outside_playing_witness :
  gameState (state worldGameOver) <> PLAYING /\
  (forall w' now,
     step (EvDrop now) worldGameOver = Some w' -> w' = worldGameOver).
Proof.
  assert (H : gameState (state worldGameOver) <> PLAYING)
    by (vm_compute; discriminate).
  split; [exact H|]. intros w' now.
  exact (proj1 (X3_idle_outside_playing _ w' H) now).
Defined.

Lemma worldGameOver_reachable : reachable worldGameOver.
Proof. exists [EvPlay; EvFrame 16 1; EvDrop 1]. vm_compute. reflexivity. Qed.



(** X5.  In every reachable state of the binary64 layer each block sits on
    the block directly below it in one of two ways: snapped onto it (flagged
    perfect, same centre, same width), or trimmed (not flagged perfect, its
    centre more than 3 and at most the lower block's width away from the
    lower centre, its width the double [width - offset] of the rounded
    offset). *)
Theorem X5_width_lost_is_offset (w : World) (i : nat) (a b : Block.t) :
  F64.reachable w ->
  nth_error (blocks (state w)) i = Some a ->
  nth_error (blocks (state w)) (S i) = Some b ->
  (Block.isPerfect b = Some true /\ Block.x b = Block.x a /\
   Block.width b = Block.width a) \/
  (Block.isPerfect b = Some false /\
   3 < Qabs (round64 (Block.x b - Block.x a)) /\
   Qabs (round64 (Block.x b - Block.x a)) <= Block.width a /\
   Block.width b =
     round64 (Block.width a - Qabs (round64 (Block.x b - Block.x a)))).
Proof.
  intros Hr Ha Hb.
  exact (F64.fi_adjacent w (f64_reachable_Inv w Hr) i a b Ha Hb).
Qed.

(** X5 on the two trimmed blocks 38 wide at 60 and 33 wide at 55. *)
Lemma X5_width_lost_is_offset_witness :
  exists a b,
    nth_error (blocks (state F64.worldOffTop)) 0 = Some a /\
    nth_error (blocks (state F64.worldOffTop)) 1 = Some b /\
    Block.width a == 38 /\ Block.x a == 60 /\
    Block.width b == 33 /\ Block.x b == 55 /\
    Block.isPerfect b = Some false /\
    Block.width b =
      round64 (Block.width a - Qabs (round64 (Block.x b - Block.x a))).
Proof.
  eexists. eexists.
  split; [vm_compute; reflexivity|]. split; [vm_compute; reflexivity|].
  split; [vm_compute; reflexivity|]. split; [vm_compute; reflexivity|].
  split; [vm_compute; reflexivity|]. split; [vm_compute; reflexivity|].
  match goal with |- Block.isPerfect ?b = _ /\ Block.width _ = round64 (Block.width ?a - _) =>
    destruct (X5_width_lost_is_offset F64.worldOffTop 0 a b
                f64_worldOffTop_reachable)
      as [(Hp & _)|(Hp & _ & _ & Hw)]
  end.
  - vm_compute. reflexivity.
  - vm_compute. reflexivity.
  - vm_compute in Hp. discriminate.
  - split; [exact Hp | exact Hw].
Defined.

(** ** Score and combo *)

Lemma scoreFrom_bounds (bs : list Block.t) (c : Z) :
  (0 <= c)%Z ->
  let n := Z.of_nat (length bs) in
  (10 * n <= scoreFrom c bs)%Z /\
  (2 * scoreFrom c bs <= 40 * n + 10 * c * n + 5 * n * (n - 1))%Z /\
  (forallb isPerfectTruthy bs = true ->
   (2 * scoreFrom c bs = 40 * n + 10 * c * n + 5 * n * (n - 1))%Z).
Proof.
  revert c. induction bs as [|b bs IH]; intros c Hc; cbv zeta.
  - cbn [length scoreFrom forallb]. repeat split; lia.
  - cbn [scoreFrom forallb]. rewrite length_cons, Nat2Z.inj_succ.
    destruct (isPerfectTruthy b).
    + destruct (IH (c + 1)%Z ltac:(lia)) as (L & U & E).
      repeat split; try nia; try (intro Hall; specialize (E Hall); nia).
    + destruct (IH 0%Z ltac:(lia)) as (L & U & _).
      repeat split; try nia; try discriminate.
Qed.

Lemma comboFrom_run (bs : list Block.t) :
  comboFrom 0 bs = Z.of_nat (perfectRun (rev bs)).
Proof.
  induction bs as [|b bs IH] using rev_ind; [reflexivity|].
  rewrite comboFrom_snoc, rev_app_distr. cbn [rev app perfectRun].
  destruct (isPerfectTruthy b); [|reflexivity].
  rewrite IH. lia.
Qed.

Lemma perfectRun_le (l : list Block.t) : (perfectRun l <= length l)%nat.
Proof.
  induction l as [|b l IH]; simpl; [lia|].
  destruct (isPerfectTruthy b); lia.
Qed.

(** X6.  In every reachable state the score is determined by the perfect
    flags of the stack: 10 for each block that is not perfect and
    [20 + 5 k] for a perfect block that follows [k] consecutive perfect
    blocks.  With [n] blocks it is therefore at least [10 n] and at most
    [20 n + 5 n (n - 1) / 2], a maximum reached when every block is
    perfect. *)
Theorem X6_score_from_stack (w : World) :
  reachable w ->
  let n := Z.of_nat (length (blocks (state w))) in
  score (state w) = scoreFrom 0 (blocks (state w)) /\
  (10 * n <= score (state w))%Z /\
  (2 * score (state w) <= 40 * n + 5 * n * (n - 1))%Z /\
  (forallb isPerfectTruthy (blocks (state w)) = true ->
   (2 * score (state w) = 40 * n + 5 * n * (n - 1))%Z).
Proof.
  intro Hr. cbv zeta.
  rewrite (pi_score _ (reachable_playInv w Hr)).
  destruct (scoreFrom_bounds (blocks (state w)) 0%Z ltac:(lia))
    as (L & U & E).
  split; [reflexivity|]. split; [exact L|].
  split; [lia|]. intro H. specialize (E H). lia.
Qed.

(** X6 at level 1 completed with seven perfect drops: the score is 245. *)
Lemma X6_score_from_stack_witness :
  reachable worldLevel1Done /\
  forallb isPerfectTruthy (blocks (state worldLevel1Done)) = true /\
  score (state worldLevel1Done) = 245%Z /\
  (2 * score (state worldLevel1Done)
   = 40 * Z.of_nat (length (blocks (state worldLevel1Done)))
     + 5 * Z.of_nat (length (blocks (state worldLevel1Done)))
       * (Z.of_nat (length (blocks (state worldLevel1Done))) - 1))%Z.
Proof.
  assert (Hall : forallb isPerfectTruthy (blocks (state worldLevel1Done))
                 = true) by (vm_compute; reflexivity).
  split; [exact worldLevel1Done_reachable|].
  split; [exact Hall|]. split; [vm_compute; reflexivity|].
  exact (proj2 (proj2 (proj2 (X6_score_from_stack worldLevel1Done
                                worldLevel1Done_reachable))) Hall).
Defined.

(** X7.  While Playing or in LevelComplete the combo is the number of
    perfect blocks at the top of the stack, down to the first block that is
    not perfect; so it is 0 exactly when the stack is empty or its top block
    is not perfect, and never exceeds the height of the stack. *)
Theorem X7_combo_is_top_run (w : World) :
  reachable w ->
  gameState (state w) = PLAYING \/ gameState (state w) = LEVEL_COMPLETE ->
  combo (state w) = Z.of_nat (perfectRun (rev (blocks (state w)))) /\
  (0 <= combo (state w) <= Z.of_nat (length (blocks (state w))))%Z.
Proof.
  intros Hr Hg.
  rewrite (pi_combo _ (reachable_playInv w Hr) Hg), comboFrom_run.
  split; [reflexivity|].
  pose proof (perfectRun_le (rev (blocks (state w)))) as H.
  rewrite length_rev in H. lia.
Qed.

(** X7 at level 1 with a Good and then a Perfect block: combo 1. *)
Lemma X7_combo_is_top_run_witness :
  reachable worldTwoBlocks /\
  (gameState (state worldTwoBlocks) = PLAYING \/
   gameState (state worldTwoBlocks) = LEVEL_COMPLETE) /\
  perfectRun (rev (blocks (state worldTwoBlocks))) = 1%nat /\
  combo (state worldTwoBlocks)
  = Z.of_nat (perfectRun (rev (blocks (state worldTwoBlocks)))).
Proof.
  assert (Hg : gameState (state worldTwoBlocks) = PLAYING \/
               gameState (state worldTwoBlocks) = LEVEL_COMPLETE)
    by (left; vm_compute; reflexivity).
  split; [exact worldTwoBlocks_reachable|]. split; [exact Hg|].
  split; [vm_compute; reflexivity|].
  exact (proj1 (X7_combo_is_top_run worldTwoBlocks
                  worldTwoBlocks_reachable Hg)).
Defined.

(** ** Camera and progress *)

(** X8.  The camera offset is a function of the stack height: 0 up to three
    blocks, then one block height more for every block placed, except for
    the block that completes the level.  While Playing with at least three
    blocks the top of the tower is therefore always drawn 160 pixels above
    the bottom of the game area. *)
Theorem X8_camera_follows_stack (w : World) :
  reachable w ->
  let n := length (blocks (state w)) in
  cameraY (state w) = cameraFor (gameState (state w)) n /\
  (gameState (state w) = PLAYING -> (n <= 3)%nat ->
   cameraY (state w) = 0%Z) /\
  (gameState (state w) = PLAYING -> (3 <= n)%nat ->
   (40 + Z.of_nat n * BLOCK_HEIGHT - cameraY (state w) = 160)%Z) /\
  (gameState (state w) = LEVEL_COMPLETE ->
   (40 + Z.of_nat n * BLOCK_HEIGHT - cameraY (state w) = 200)%Z).
Proof.
  intro Hr. cbv zeta.
  pose proof (pi_camera _ (reachable_playInv w Hr)) as Hc.
  split; [exact Hc|]. rewrite Hc. unfold BLOCK_HEIGHT.
  split; [|split].
  - intros -> Hn. cbn [cameraFor]. unfold BLOCK_HEIGHT. lia.
  - intros -> Hn. cbn [cameraFor]. unfold BLOCK_HEIGHT. lia.
  - intro Hg.
    destruct (reachable_Inv w Hr) as [_ [[Hm _]|Hs]]; [congruence|].
    pose proof (inv_complete _ Hs Hg) as H7.
    rewrite Hg. cbn [cameraFor]. unfold BLOCK_HEIGHT. lia.
Qed.

(** X8 at level 1 completed with seven perfect drops. *)
Lemma X8_camera_follows_stack_witness :
  reachable worldLevel1Done /\
  gameState (state worldLevel1Done) = LEVEL_COMPLETE /\
  cameraY (state worldLevel1Done) = 120%Z /\
  (40 + Z.of_nat (length (blocks (state worldLevel1Done))) * BLOCK_HEIGHT
   - cameraY (state worldLevel1Done) = 200)%Z.
Proof.
  assert (Hg : gameState (state worldLevel1Done) = LEVEL_COMPLETE)
    by (vm_compute; reflexivity).
  split; [exact worldLevel1Done_reachable|]. split; [exact Hg|].
  split; [vm_compute; reflexivity|].
  exact (proj2 (proj2 (proj2 (X8_camera_follows_stack worldLevel1Done
                                worldLevel1Done_reachable))) Hg).
Defined.

(** X9.  While Playing the stack is shorter than the target of the current
    level, so the progress display never shows a full count during play;
    no stack is ever higher than 25 blocks; and in LevelComplete the stack
    has between 7 and 25 blocks. *)
Theorem X9_stack_height (w : World) :
  reachable w ->
  (forall cfg, gameState (state w) = PLAYING ->
     currentLevelConfig (state w) = Some cfg ->
     (length (blocks (state w)) < LevelConfig.targetBlocks cfg)%nat) /\
  (length (blocks (state w)) <= 25)%nat /\
  (gameState (state w) = LEVEL_COMPLETE ->
   (7 <= length (blocks (state w)) <= 25)%nat).
Proof.
  intro Hr. pose proof (reachable_playInv w Hr) as HP.
  split; [exact (pi_progress _ HP)|].
  split; [exact (pi_length _ HP)|]. intro Hg.
  split; [|exact (pi_length _ HP)].
  destruct (reachable_Inv w Hr) as [_ [[Hm _]|Hs]]; [congruence|].
  exact (inv_complete _ Hs Hg).
Qed.

(** X9 at level 1 with two blocks placed. *)
Lemma X9_stack_height_witness :
  reachable worldTwoBlocks /\
  gameState (state worldTwoBlocks) = PLAYING /\
  currentLevelConfig (state worldTwoBlocks) = Some (level_of_index 0) /\
  (length (blocks (state worldTwoBlocks))
   < LevelConfig.targetBlocks (level_of_index 0))%nat.
Proof.
  assert (Hg : gameState (state worldTwoBlocks) = PLAYING)
    by (vm_compute; reflexivity).
  assert (Hc : currentLevelConfig (state worldTwoBlocks)
               = Some (level_of_index 0)) by (vm_compute; reflexivity).
  split; [exact worldTwoBlocks_reachable|].
  split; [exact Hg|]. split; [exact Hc|].
  exact (proj1 (X9_stack_height worldTwoBlocks worldTwoBlocks_reachable)
           (level_of_index 0) Hg Hc).
Defined.

(** ** Level changes *)

(** X10.  The reset that [nextLevel] defers below the last level is
    [startGame] for the next level's configuration, except that it leaves
    the start-time reference as it is where [startGame] clears it. *)
Theorem X10_deferred_reset_is_startGame (i : nat) (st : State)
    (next : LevelConfig.t) :
  nth_error LEVELS (i + 1) = Some next ->
  nextLevelReset i st
  = setStartTimeRef (startTimeRef st) (startGame next st) /\
  startTimeRef (nextLevelReset i st) = startTimeRef st /\
  startTimeRef (startGame next st) = None.
Proof.
  intro H. unfold nextLevelReset. rewrite H. repeat split.
Qed.

(** X10 for the reset to level 2 in a state whose start time is set. *)
Lemma X10_deferred_reset_is_startGame_witness :
  nth_error LEVELS (0 + 1) = Some (level_of_index 1) /\
  startTimeRef (state worldHook60) = Some 16 /\
  nextLevelReset 0 (state worldHook60)
  = setStartTimeRef (startTimeRef (state worldHook60))
      (startGame (level_of_index 1) (state worldHook60)).
Proof.
  split; [reflexivity|]. split; [vm_compute; reflexivity|].
  exact (proj1 (X10_deferred_reset_is_startGame 0 (state worldHook60)
                  (level_of_index 1) eq_refl)).
Defined.

Lemma handleDrop_level (cfg : LevelConfig.t) (now : Z) (st : State) :
  currentLevelIdx (fst (handleDrop cfg now st st)) = currentLevelIdx st.
Proof.
  unfold handleDrop.
  destruct (negb _ || _); [reflexivity|]. cbv zeta.
  destruct (Qgt_bool _ _); [reflexivity|].
  destruct (Qle_bool _ _).
  - match goal with |- context [addNewBlock cfg now ?r ?s ?p ?a ?c] =>
      destruct (addNewBlock_fields cfg now r s p a c)
        as (_ & _ & _ & _ & _ & _ & Fi & _)
    end.
    rewrite Fi. reflexivity.
  - destruct (Qlt_bool _ _); [reflexivity|].
    match goal with |- context [addNewBlock cfg now ?r ?s ?p ?a ?c] =>
      destruct (addNewBlock_fields cfg now r s p a c)
        as (_ & _ & _ & _ & _ & _ & Fi & _)
    end.
    rewrite Fi. reflexivity.
Qed.

(** X11.  Only the next-level button changes the level: after it the index
    is the next one modulo the number of levels, and every other event
    (play, retry, menu, drops, frames and all timeouts, the deferred resets
    included) leaves the index as it is. *)
Theorem X11_level_index (ev : Event) (w w' : World) :
  step ev w = Some w' ->
  currentLevelIdx (state w') =
  match ev with
  | EvNext => ((currentLevelIdx (state w) + 1) mod length LEVELS)%nat
  | _ => currentLevelIdx (state w)
  end.
Proof.
  intro H. unfold step in H.
  destruct (currentLevelConfig (state w)) as [cfg|] eqn:Hcfg; [|discriminate].
  destruct (currentLevelConfig_bound _ _ Hcfg) as [Hlt _].
  rewrite LEVELS_length in *. cbv zeta in H.
  destruct ev as [ | | | |now|time sinv|n].
  - destruct (GameState_eqb _ _); [|discriminate]. now injection H as <-.
  - destruct (GameState_eqb _ _); [|discriminate]. unfold nextLevel in H.
    rewrite LEVELS_length in H.
    destruct (currentLevelIdx (state w) <? 10 - 1)%nat eqn:E;
      injection H as <-; cbn [state currentLevelIdx setCurrentLevelIdx].
    + apply Nat.ltb_lt in E. rewrite Nat.mod_small; lia.
    + apply Nat.ltb_ge in E.
      assert (currentLevelIdx (state w) = 9%nat) as -> by lia. reflexivity.
  - destruct (_ || _); [|discriminate]. now injection H as <-.
  - destruct (GameState_eqb _ _); [|discriminate]. now injection H as <-.
  - pose proof (handleDrop_level cfg now (state w)) as Hl.
    destruct (handleDrop cfg now (state w) (state w)).
    now injection H as <-.
  - destruct (_ && _); [|discriminate]. injection H as <-.
    apply animate_fields.
  - destruct (nth_error (timers w) n) as [cb|]; [|discriminate].
    injection H as <-. destruct cb as [i|c| ]; cbn [state runCallback].
    + apply nextLevelReset_fields.
    + reflexivity.
    + reflexivity.
Qed.

(** X11 at the tenth level completed: the index goes from 9 to 0. *)
Lemma X11_level_index_witness :
  exists w',
    step EvNext (worldAfter toLastLevelComplete) = Some w' /\
    currentLevelIdx (state (worldAfter toLastLevelComplete)) = 9%nat /\
    currentLevelIdx (state w')
    = ((currentLevelIdx (state (worldAfter toLastLevelComplete)) + 1)
       mod length LEVELS)%nat.
Proof.
  eexists.
  assert (H : step EvNext (worldAfter toLastLevelComplete)
              = Some (mkWorld
                        (setCurrentLevelIdx 0
                           (state (worldAfter toLastLevelComplete)))
                        [CbStartGame (level_of_index 9)]))
    by (vm_compute; reflexivity).
  split; [exact H|]. split; [vm_compute; reflexivity|].
  exact (X11_level_index EvNext _ _ H).
Defined.

(** ** Hook speed *)


Lemma f64_speed_table :
  forallb (fun i => forallb (F64.speedEntryOk i) (seq 0 26)) (seq 0 10) = true.
Proof. vm_compute. reflexivity. Qed.

Lemma f64_hookSpeed_height (cfg : LevelConfig.t) (r : State) :
  F64.hookSpeed cfg r = F64.hookSpeed cfg (F64.withBlocks (length (blocks r))).
Proof.
  unfold F64.hookSpeed, F64.withBlocks. cbn [blocks setBlocks].
  now rewrite repeat_length.
Qed.

Lemma f64_speed_entry (i n : nat) :
  (i < 10)%nat -> (n <= 25)%nat -> F64.speedEntryOk i n = true.
Proof.
  intros Hi Hn. pose proof f64_speed_table as H.
  rewrite forallb_forall in H.
  specialize (H i ltac:(apply in_seq; lia)).
  rewrite forallb_forall in H. apply H. apply in_seq. lia.
Qed.

(** X12.  The angular speed of the hook, as the double that
    [updateHookPosition] computes.  For every level of [LEVELS] and every
    stack of at most 25 blocks it is within [10^-17] of
    [(1.2 + 0.2 i) * (20 + blocks.length) / 10000] (level index [i]), it is
    positive, it is strictly larger after one more block, and it is
    strictly larger on the next level for the same stack.  The stored base
    speed of level 7 is the double 2.4000000000000004; the speed of level 1
    over an empty stack is a double below 0.0024, and no speed of the table
    exceeds 0.0135. *)
Theorem X12_hook_speed :
  (forall (i : nat) (cfg : LevelConfig.t) (r : State),
     nth_error LEVELS i = Some cfg -> (length (blocks r) <= 25)%nat ->
     Qabs (F64.hookSpeed cfg r
           - ((12 + 2 * inject_Z (Z.of_nat i)) / 10)
             * ((20 + inject_Z (Z.of_nat (length (blocks r)))) / 10000))
       <= 1 # 100000000000000000 /\
     0 < F64.hookSpeed cfg r /\
     (forall r2 : State,
        length (blocks r2) = S (length (blocks r)) ->
        F64.hookSpeed cfg r < F64.hookSpeed cfg r2) /\
     (forall cfg2 : LevelConfig.t,
        nth_error LEVELS (S i) = Some cfg2 ->
        F64.hookSpeed cfg r < F64.hookSpeed cfg2 r)) /\
  F64.baseSpeed (level_of_index 6) == 5404319552844596 # 2251799813685248 /\
  F64.hookSpeed (level_of_index 0) initialState < 24 # 10000 /\
  F64.hookSpeed (level_of_index 9) (F64.withBlocks 25) <= 135 # 10000.
Proof.
  split; [|split; [vm_compute; reflexivity|split;
    [vm_compute; reflexivity | vm_compute; discriminate]]].
  intros i cfg r Hcfg Hn.
  destruct (LEVELS_nth i cfg Hcfg) as [Hi ->]. unfold MAX_LEVELS in Hi.
  pose proof (f64_speed_entry i (length (blocks r)) Hi Hn) as H.
  unfold F64.speedEntryOk in H. cbv zeta in H.
  rewrite !andb_true_iff in H. destruct H as [[[H1 H2] H3] H4].
  apply Qle_bool_iff in H1. apply Qlt_bool_iff in H2, H3, H4.
  rewrite <- f64_hookSpeed_height in H1, H2, H3, H4.
  split; [exact H1|]. split; [exact H2|]. split.
  - intros r2 Hr2. rewrite (f64_hookSpeed_height _ r2), Hr2. exact H3.
  - intros cfg2 Hcfg2. destruct (LEVELS_nth _ _ Hcfg2) as [_ ->].
    rewrite (f64_hookSpeed_height (level_of_index (S i)) r). exact H4.
Qed.

(** X12 at level 3 with four blocks placed. *)
Lemma X12_hook_speed_witness :
  0 < F64.hookSpeed (level_of_index 2) (F64.withBlocks 4) /\
  F64.hookSpeed (level_of_index 2) (F64.withBlocks 4)
  < F64.hookSpeed (level_of_index 2) (F64.withBlocks 5) /\
  F64.hookSpeed (level_of_index 2) (F64.withBlocks 4)
  < F64.hookSpeed (level_of_index 3) (F64.withBlocks 4).
Proof.
  destruct (proj1 X12_hook_speed 2%nat (level_of_index 2) (F64.withBlocks 4)
              eq_refl ltac:(vm_compute; lia))
    as (_ & H2 & H3 & H4).
  split; [exact H2|]. split.
  - apply H3. reflexivity.
  - apply H4. reflexivity.
Defined.

(** ** Star display and accuracy *)

Lemma calculateStars_of_counts (r : State) :
  gameState r <> GAME_OVER -> blocks r <> [] ->
  calculateStars r
  = starsOfCounts (length (filter isPerfectTruthy (blocks r)))
                  (length (blocks r)) /\
  accuracyPercent r
  = Some (accuracyOfCounts (length (filter isPerfectTruthy (blocks r)))
                           (length (blocks r))).
Proof.
  intros Hg Hb. unfold calculateStars, accuracyPercent.
  destruct (GameState_eqb (gameState r) GAME_OVER) eqn:E.
  { apply GameState_eqb_eq in E. contradiction. }
  destruct (blocks r) as [|b0 bs]; [contradiction|].
  cbn [length]. split; reflexivity.
Qed.

(** X13.  [StarRating] always renders three stars, with delays 0, 150 and
    300 ms.  For a rating from 0 to 3 exactly that many are filled, the
    leftmost ones; a rating below 1 fills none and a rating above 3 fills
    all; without animation no star is scaled or floating.  On the
    level-complete screen the number of filled stars is [calculateStars],
    between 1 and 3. *)
Theorem X13_star_display :
  (forall (stars : Z) (animated : bool),
     map StarRating.transitionDelay (StarRating.render stars animated)
     = [0%Z; 150%Z; 300%Z] /\
     map StarRating.isFilled (StarRating.render stars animated)
     = [(1 <=? stars)%Z; (2 <=? stars)%Z; (3 <=? stars)%Z] /\
     (animated = false ->
      forall s, In s (StarRating.render stars animated) ->
        StarRating.scaled s = false /\ StarRating.floating s = false)) /\
  (forall (stars : Z) (animated : bool),
     (0 <= stars <= 3)%Z ->
     Z.of_nat (length (filter StarRating.isFilled
                         (StarRating.render stars animated))) = stars) /\
  (forall (stars : Z) (animated : bool) (i j : nat) (si sj : StarRating.star),
     (i <= j)%nat ->
     nth_error (StarRating.render stars animated) i = Some si ->
     nth_error (StarRating.render stars animated) j = Some sj ->
     StarRating.isFilled sj = true -> StarRating.isFilled si = true) /\
  (forall r : State,
     gameState r <> GAME_OVER ->
     Z.of_nat (length (filter StarRating.isFilled (levelCompleteStars r)))
     = calculateStars r /\
     (1 <= calculateStars r <= 3)%Z).
Proof.
  assert (Hcount : forall stars animated, (0 <= stars <= 3)%Z ->
            Z.of_nat (length (filter StarRating.isFilled
                                (StarRating.render stars animated)))
            = stars).
  { intros stars animated H.
    assert (C : stars = 0%Z \/ stars = 1%Z \/ stars = 2%Z \/ stars = 3%Z)
      by lia.
    destruct C as [-> | [-> | [-> | ->] ] ]; reflexivity. }
  assert (Hrange : forall r, gameState r <> GAME_OVER ->
            (1 <= calculateStars r <= 3)%Z).
  { intros r Hg. unfold calculateStars.
    destruct (GameState_eqb (gameState r) GAME_OVER) eqn:E.
    { apply GameState_eqb_eq in E. contradiction. }
    destruct (length (blocks r)); [lia|]. cbv zeta.
    destruct (Qle_bool (6 # 10) _); [lia|].
    destruct (Qle_bool (3 # 10) _); lia. }
  split; [|split; [exact Hcount|split]].
  - intros stars animated. split; [reflexivity|]. split; [reflexivity|].
    intros -> s Hs. unfold StarRating.render in Hs. simpl in Hs.
    destruct Hs as [<- | [<- | [<- | [] ] ] ]; split; reflexivity.
  - intros stars animated i j si sj Hij Hi Hj Hf.
    apply (map_nth_error StarRating.isFilled) in Hi, Hj.
    rewrite Hf in Hj.
    change (map StarRating.isFilled (StarRating.render stars animated))
      with [(1 <=? stars)%Z; (2 <=? stars)%Z; (3 <=? stars)%Z] in Hi, Hj.
    destruct (StarRating.isFilled si); [reflexivity|exfalso].
    destruct i as [|[|[|[|i]]]], j as [|[|[|[|j]]]];
      cbn [nth_error] in Hi, Hj;
      try discriminate; try lia;
      injection Hi as Hi; injection Hj as Hj;
      apply Z.leb_le in Hj; apply Z.leb_gt in Hi; lia.
  - intros r Hg. split; [|exact (Hrange r Hg)].
    unfold levelCompleteStars. apply Hcount.
    pose proof (Hrange r Hg). lia.
Qed.

(** X13 for a rating of two stars. *)
Lemma X13_star_display_witness :
  (0 <= 2 <= 3)%Z /\
  Z.of_nat (length (filter StarRating.isFilled (StarRating.render 2 true)))
  = 2%Z.
Proof.
  assert (H : (0 <= 2 <= 3)%Z) by lia.
  split; [exact H|].
  exact (proj1 (proj2 X13_star_display) 2%Z true H).
Defined.

Lemma displaysAgree_upto_25 :
  forallb (fun n => forallb (fun p => displaysAgree p n) (seq 0 (n + 1)))
          (seq 1 25) = true.
Proof. vm_compute. reflexivity. Qed.

Lemma filter_length_le (bs : list Block.t) :
  (length (filter isPerfectTruthy bs) <= length bs)%nat.
Proof.
  induction bs as [|b bs IH]; simpl; [lia|].
  destruct (isPerfectTruthy b); simpl; lia.
Qed.

Ltac rewrite_all_eq :=
  repeat match goal with
         | H : ?l = ?r :> bool |- context [?l] => rewrite H; clear H
         end.

(** X14.  On every reachable level-complete screen the accuracy shown is a
    percentage between 0 and 100 that agrees with the stars: three stars
    exactly from 60 percent, two stars exactly from 30 to 59 percent, one
    star below 30; it is 100 exactly when every block is perfect and 0
    exactly when none is. *)
Theorem X14_accuracy_agrees_with_stars (w : World) :
  reachable w -> gameState (state w) = LEVEL_COMPLETE ->
  exists a,
    accuracyPercent (state w) = Some a /\
    (0 <= a <= 100)%Z /\
    (calculateStars (state w) = 3%Z <-> (60 <= a)%Z) /\
    (calculateStars (state w) = 2%Z <-> (30 <= a < 60)%Z) /\
    (calculateStars (state w) = 1%Z <-> (a < 30)%Z) /\
    (a = 100%Z <->
     length (filter isPerfectTruthy (blocks (state w)))
     = length (blocks (state w))) /\
    (a = 0%Z <->
     length (filter isPerfectTruthy (blocks (state w))) = 0%nat).
Proof.
  intros Hr Hg.
  pose proof (pi_length _ (reachable_playInv w Hr)) as H25.
  assert (H7 : (7 <= length (blocks (state w)))%nat).
  { destruct (reachable_Inv w Hr) as [_ [[Hm _]|Hs]]; [congruence|].
    exact (inv_complete _ Hs Hg). }
  assert (Hne : blocks (state w) <> []).
  { intro E. rewrite E in H7. simpl in H7. lia. }
  assert (Hgo : gameState (state w) <> GAME_OVER) by congruence.
  destruct (calculateStars_of_counts (state w) Hgo Hne) as [Es Ea].
  pose proof (filter_length_le (blocks (state w))) as Hp.
  set (p := length (filter isPerfectTruthy (blocks (state w)))) in *.
  set (n := length (blocks (state w))) in *.
  pose proof displaysAgree_upto_25 as Hall.
  rewrite forallb_forall in Hall.
  specialize (Hall n ltac:(apply in_seq; lia)).
  rewrite forallb_forall in Hall.
  specialize (Hall p ltac:(apply in_seq; lia)).
  unfold displaysAgree in Hall. cbv zeta in Hall.
  rewrite <- Es in Hall.
  exists (accuracyOfCounts p n). split; [exact Ea|].
  set (a := accuracyOfCounts p n) in *.
  set (s := calculateStars (state w)) in *.
  clearbody a s p n.
  repeat (apply andb_true_iff in Hall; destruct Hall as [Hall ?]).
  repeat match goal with
         | H : Bool.eqb _ _ = true |- _ => apply eqb_prop in H
         end.
  apply Z.leb_le in Hall.
  match goal with H : (a <=? 100)%Z = true |- _ => apply Z.leb_le in H end.
  split; [lia|].
  split; [rewrite <- Z.eqb_eq, <- Z.leb_le; now rewrite_all_eq|].
  split; [rewrite <- Z.eqb_eq, <- Z.leb_le, <- Z.ltb_lt, <- andb_true_iff;
          now rewrite_all_eq|].
  split; [rewrite <- Z.eqb_eq, <- Z.ltb_lt; now rewrite_all_eq|].
  split; [rewrite <- Z.eqb_eq, <- Nat.eqb_eq; now rewrite_all_eq|].
  rewrite <- Z.eqb_eq, <- Nat.eqb_eq; now rewrite_all_eq.
Qed.

Lemma worldLevel1Done_complete :
  gameState (state worldLevel1Done) = LEVEL_COMPLETE.
Proof. vm_compute. reflexivity. Qed.

(** X14 at level 1 completed with seven perfect drops: 100 percent. *)
Lemma X14_accuracy_agrees_with_stars_witness :
  reachable worldLevel1Done /\
  gameState (state worldLevel1Done) = LEVEL_COMPLETE /\
  accuracyPercent (state worldLevel1Done) = Some 100%Z /\
  exists a,
    accuracyPercent (state worldLevel1Done) = Some a /\
    (0 <= a <= 100)%Z /\
    (calculateStars (state worldLevel1Done) = 3%Z <-> (60 <= a)%Z) /\
    (calculateStars (state worldLevel1Done) = 2%Z <-> (30 <= a < 60)%Z) /\
    (calculateStars (state worldLevel1Done) = 1%Z <-> (a < 30)%Z) /\
    (a = 100%Z <->
     length (filter isPerfectTruthy (blocks (state worldLevel1Done)))
     = length (blocks (state worldLevel1Done))) /\
    (a = 0%Z <->
     length (filter isPerfectTruthy (blocks (state worldLevel1Done)))
     = 0%nat).
Proof.
  split; [exact worldLevel1Done_reachable|].
  split; [exact worldLevel1Done_complete|].
  split; [vm_compute; reflexivity|].
  exact (X14_accuracy_agrees_with_stars worldLevel1Done
           worldLevel1Done_reachable worldLevel1Done_complete).
Defined.

(** ** Feedback label *)




(** ** The width budget of a session *)











